(** * Data dependence graph builder (angr, [ddg.py])

    A shallow embedding of the [DDG] class: the forward CFG walk of
    [DDG.construct] with its per-frame concrete address maps, the use-def
    tracer [DDG._trace_source] and the reconciliation pass
    [DDG._solve_symbolic_mem_operations].

    Python objects are modelled as follows.
    - [set] and [dict] values are stdpp [gset] / [gmap]; a [defaultdict] is a
      map read with a default.
    - A raised exception is the [Err] case of [Result]; the two [while]
      loops take a fuel argument and answer [None] when it runs out.
    - The register-dependency sets of the tracer are mutable objects that
      the memo table [traced] aliases; they live in an explicit store
      ([Heap]) and are referred to by location. *)

From stdpp Require Import gmap list fin_maps fin_sets.
From Stdlib Require Import ZArith Lia.

Open Scope Z_scope.

(** ** Exceptions and the error monad *)

Inductive Exn :=
| StackIsEmpty        (* raise Exception("Stack is empty") *)
| AttributeError      (* attribute access on None / on a run without it *)
| IndexError          (* list index out of range *)
| UnboundLocalError.  (* use of a local that was never assigned *)

Inductive Result (A : Type) :=
| Ok (a : A)
| Err (e : Exn).
Arguments Ok {A} a.
Arguments Err {A} e.

#[global] Instance Result_ret : MRet Result := fun _ a => Ok a.
#[global] Instance Result_bind : MBind Result := fun _ _ k r =>
  match r with
  | Ok a => k a
  | Err e => Err e
  end.

Definition of_option {A} (e : Exn) (o : option A) : Result A :=
  match o with
  | Some a => Ok a
  | None => Err e
  end.

#[global] Instance Exn_eq_dec : EqDecision Exn.
Proof. solve_decision. Defined.

(** Python list indexing [l[i]]: a negative index counts from the end. *)
Definition py_index {A} (l : list A) (i : Z) : Result A :=
  if 0 <=? i then of_option IndexError (l !! Z.to_nat i)
  else if 0 <=? Z.of_nat (length l) + i
       then of_option IndexError (l !! Z.to_nat (Z.of_nat (length l) + i))
       else Err IndexError.

(** ** Data model *)

Definition MAX_BBL_ANALYZE_TIMES : nat := 40.

(** A symbolic expression as far as the builder looks at it:
    [is_symbolic()] and [any()]. *)
Record SymExpr := { is_symbolic : bool; any : Z }.

Definition concrete (v : Z) : SymExpr := {| is_symbolic := false; any := v |}.
Definition symbolic (v : Z) : SymExpr := {| is_symbolic := true; any := v |}.

(** The abstract state exposes its stack pointer. *)
Record SimState := { sp_value : SymExpr }.

Inductive SimRef :=
| SimRegRead  (stmt_idx : Z) (offset : Z) (data_reg_deps data_tmp_deps : list Z)
| SimRegWrite (stmt_idx : Z) (offset : Z) (data_reg_deps data_tmp_deps : list Z)
| SimTmpRead  (stmt_idx : Z) (tmp : Z) (data_reg_deps data_tmp_deps : list Z)
| SimTmpWrite (stmt_idx : Z) (tmp : Z) (data_reg_deps data_tmp_deps : list Z)
| SimMemRead  (stmt_idx : Z) (addr : SymExpr)
              (addr_reg_deps addr_tmp_deps data_reg_deps data_tmp_deps : list Z)
| SimMemWrite (stmt_idx : Z) (addr : SymExpr)
              (addr_reg_deps addr_tmp_deps data_reg_deps data_tmp_deps : list Z).

Definition ref_stmt_idx (r : SimRef) : Z :=
  match r with
  | SimRegRead i _ _ _ | SimRegWrite i _ _ _
  | SimTmpRead i _ _ _ | SimTmpWrite i _ _ _
  | SimMemRead i _ _ _ _ _ | SimMemWrite i _ _ _ _ _ => i
  end.

Definition ref_data_reg_deps (r : SimRef) : list Z :=
  match r with
  | SimRegRead _ _ d _ | SimRegWrite _ _ d _
  | SimTmpRead _ _ d _ | SimTmpWrite _ _ d _
  | SimMemRead _ _ _ _ d _ | SimMemWrite _ _ _ _ d _ => d
  end.

Definition ref_data_tmp_deps (r : SimRef) : list Z :=
  match r with
  | SimRegRead _ _ _ d | SimRegWrite _ _ _ d
  | SimTmpRead _ _ _ d | SimTmpWrite _ _ _ d
  | SimMemRead _ _ _ _ _ d | SimMemWrite _ _ _ _ _ d => d
  end.

Definition is_mem_read (r : SimRef) : bool :=
  match r with SimMemRead _ _ _ _ _ _ => true | _ => false end.
Definition is_mem_write (r : SimRef) : bool :=
  match r with SimMemWrite _ _ _ _ _ _ => true | _ => false end.

(** A statement is its ordered reference list ([stmt.refs]). *)
Record Stmt := { refs : list SimRef }.

(** [Ijk_Boring] stands for every jumpkind other than a call or a return. *)
Inductive JumpKind := Ijk_Call | Ijk_Ret | Ijk_Boring.

Record SimExit := {
  concretize : Z;
  jumpkind : JumpKind;
  state : SimState
}.

(** What a run is made of: the statements of a [SimIRSB] or the flat
    reference list of a [SimProcedure]. *)
Inductive RunBody :=
| SimIRSB (statements : list Stmt)
| SimProcedure (proc_refs : list SimRef).

(** A run.  [rid] stands for the identity of the Python object: the
    builder compares runs and keys [scanned_runs] by the object, while
    [succ_targets] and the DDG use [addr]. *)
Record SimRun := {
  rid : nat;
  run_addr : Z;
  body : RunBody;
  exits : list SimExit;
  initial_state : SimState
}.

Definition source := (Z * Z)%type.   (* (run address, statement index) *)

Record StackFrame := {
  initial_sp : option Z;
  addr_to_ref : gmap Z source
}.

Definition new_StackFrame (sp : option Z) : StackFrame :=
  {| initial_sp := sp; addr_to_ref := ∅ |}.

(** Frames are listed as the Python list has them: index 0 is the
    outermost frame, [append] adds the innermost one at the end. *)
Abbreviation CallStack := (list StackFrame).

Record RunWrapper := {
  run : SimRun;
  new_state : option SimState;
  call_stack : CallStack;
  reanalyze_successors : bool
}.

#[global] Instance SymExpr_eq_dec : EqDecision SymExpr.
Proof. solve_decision. Defined.
#[global] Instance SimState_eq_dec : EqDecision SimState.
Proof. solve_decision. Defined.
#[global] Instance SimRef_eq_dec : EqDecision SimRef.
Proof. solve_decision. Defined.
#[global] Instance JumpKind_eq_dec : EqDecision JumpKind.
Proof. solve_decision. Defined.

(** ** [_find_frame_by_addr] *)

Section FindFrame.
Variables stack_lbound stack_ubound : Z.

(** The [for fr in reversed(stack)] loop, over the frames paired with
    their index in [stack]. *)
Fixpoint scan_frames (frs : list (nat * StackFrame)) (addr : Z) : option nat :=
  match frs with
  | [] => None
  | (i, fr) :: rest =>
      match initial_sp fr with
      | None => Some i
      | Some sp => if addr <? sp then Some i else scan_frames rest addr
      end
  end.

(** The result is the index in [stack] of the frame the Python function
    returns a reference to. *)
Definition find_frame_by_addr (stack : CallStack) (addr : Z) : Result nat :=
  if (length stack =? 0)%nat then Err StackIsEmpty
  else if negb ((stack_lbound <=? addr) && (addr <=? stack_ubound)) then Ok 0%nat
  else match scan_frames (rev (imap pair stack)) addr with
       | Some i => Ok i
       | None => Ok 0%nat
       end.

(** ** The DDG store and the symbolic-operation set *)

(** [self._ddg = defaultdict(lambda: defaultdict(set))]. *)
Definition ddg_get (g : gmap Z (gmap Z (gset source))) (a i : Z) : gset source :=
  default ∅ (default ∅ (g !! a) !! i).

(** [self._ddg[a][i].add(w)]. *)
Definition ddg_add (a i : Z) (w : source) (g : gmap Z (gmap Z (gset source)))
  : gmap Z (gmap Z (gset source)) :=
  <[a := <[i := ddg_get g a i ∪ {[w]}]> (default ∅ (g !! a))]> g.

(** Membership in [self._symbolic_mem_ops]: runs are compared by identity,
    references by their content (the passes that read the set only use a
    reference's kind, statement index and dependencies). *)
Definition same_op (x y : SimRun * SimRef) : bool :=
  (rid x.1 =? rid y.1)%nat && bool_decide (x.2 = y.2).

(** [self._symbolic_mem_ops.add(x)]. *)
Definition sym_add (x : SimRun * SimRef) (ops : list (SimRun * SimRef))
  : list (SimRun * SimRef) :=
  if existsb (same_op x) ops then ops else ops ++ [x].

(** ** Reference processing of the forward walk *)

(** The state the reference loops of one iteration update: the call stack
    of the current wrapper, [reanalyze_successors_flag], the DDG and the
    symbolic-operation set. *)
Record Scan := {
  sc_stack : CallStack;
  sc_flag : bool;
  sc_ddg : gmap Z (gmap Z (gset source));
  sc_sym : list (SimRun * SimRef)
}.

(** Lines 253-262 and 309-316: store [tpl] for a concrete write address in
    the frame that owns it, unless it is already there. *)
Definition record_write (a : Z) (tpl : source) (s : Scan) : Result Scan :=
  k ← find_frame_by_addr (sc_stack s) a;
  fr ← of_option IndexError (sc_stack s !! k);
  if bool_decide (addr_to_ref fr !! a = Some tpl) then Ok s
  else Ok {| sc_stack := <[k := {| initial_sp := initial_sp fr;
                                   addr_to_ref := <[a := tpl]> (addr_to_ref fr) |}]>
                           (sc_stack s);
             sc_flag := true;
             sc_ddg := sc_ddg s;
             sc_sym := sc_sym s |}.

(** [frame.addr_to_ref] looked up at a concrete read address. *)
Definition lookup_write (a : Z) (s : Scan) : Result (option source) :=
  k ← find_frame_by_addr (sc_stack s) a;
  fr ← of_option IndexError (sc_stack s !! k);
  Ok (addr_to_ref fr !! a).

Definition add_edge (a i : Z) (w : source) (s : Scan) : Scan :=
  {| sc_stack := sc_stack s; sc_flag := sc_flag s;
     sc_ddg := ddg_add a i w (sc_ddg s); sc_sym := sc_sym s |}.

Definition add_sym (x : SimRun * SimRef) (s : Scan) : Scan :=
  {| sc_stack := sc_stack s; sc_flag := sc_flag s;
     sc_ddg := sc_ddg s; sc_sym := sym_add x (sc_sym s) |}.

(** Lines 267-293: [for ref in refs] over the references of statement [i]
    of the block at [irsb_addr]; the first concrete read that finds its
    writer leaves the loop. *)
Fixpoint scan_mem_reads (old_irsb : SimRun) (irsb_addr i : Z)
    (rs : list SimRef) (s : Scan) : Result Scan :=
  match rs with
  | [] => Ok s
  | ref :: rest =>
      match ref with
      | SimMemRead _ addr _ _ _ _ =>
          if negb (is_symbolic addr) then
            hit ← lookup_write (any addr) s;
            match hit with
            | Some tpl => Ok (add_edge irsb_addr i tpl s)
            | None => scan_mem_reads old_irsb irsb_addr i rest s
            end
          else scan_mem_reads old_irsb irsb_addr i rest (add_sym (old_irsb, ref) s)
      | _ => scan_mem_reads old_irsb irsb_addr i rest s
      end
  end.

(** Lines 240-293: one statement of a basic block. *)
Definition process_stmt (old_irsb : SimRun) (irsb_addr i : Z)
    (stmt : Stmt) (s : Scan) : Result Scan :=
  match last (refs stmt) with
  | None => Ok s
  | Some real_ref =>
      s1 ← match real_ref with
           | SimMemWrite _ addr _ _ _ _ =>
               if negb (is_symbolic addr)
               then record_write (any addr) (irsb_addr, i) s
               else Ok (add_sym (old_irsb, real_ref) s)
           | _ => Ok s
           end;
      scan_mem_reads old_irsb irsb_addr i (refs stmt) s1
  end.

(** Lines 239-293: [for i in range(len(stmts))], from index [i]. *)
Fixpoint process_stmts (old_irsb : SimRun) (irsb_addr i : Z)
    (stmts : list Stmt) (s : Scan) : Result Scan :=
  match stmts with
  | [] => Ok s
  | stmt :: rest =>
      s1 ← process_stmt old_irsb irsb_addr i stmt s;
      process_stmts old_irsb irsb_addr (i + 1) rest s1
  end.

(** The value the local [i] holds once the statement loop is over: the
    last index, or what it held before when the block has no statement. *)
Definition loop_var_after (var_i : option Z) (stmts : list Stmt) : option Z :=
  match stmts with
  | [] => var_i
  | _ => Some (Z.of_nat (length stmts) - 1)
  end.

(** Lines 299-334: the references of a summary run.  The write branch
    builds its tuple from the local [i] of the statement loop above, which
    is whatever the last basic block left there (or not bound at all); the
    read branch uses [-1]. *)
Fixpoint process_proc_refs (old_sim_proc : SimRun) (proc_addr : Z)
    (var_i : option Z) (rs : list SimRef) (s : Scan) : Result Scan :=
  match rs with
  | [] => Ok s
  | ref :: rest =>
      match ref with
      | SimMemWrite _ addr _ _ _ _ =>
          if negb (is_symbolic addr) then
            i ← of_option UnboundLocalError var_i;
            s1 ← record_write (any addr) (proc_addr, i) s;
            process_proc_refs old_sim_proc proc_addr var_i rest s1
          else process_proc_refs old_sim_proc proc_addr var_i rest
                 (add_sym (old_sim_proc, ref) s)
      | SimMemRead _ addr _ _ _ _ =>
          if negb (is_symbolic addr) then
            hit ← lookup_write (any addr) s;
            match hit with
            | Some tpl => Ok (add_edge proc_addr (-1) tpl s)
            | None => process_proc_refs old_sim_proc proc_addr var_i rest s
            end
          else process_proc_refs old_sim_proc proc_addr var_i rest
                 (add_sym (old_sim_proc, ref) s)
      | _ => process_proc_refs old_sim_proc proc_addr var_i rest s
      end
  end.

End FindFrame.

(** ** The forward walk of [construct] *)

(** The variables of [construct] that live across iterations of its
    [while] loop.  [run_stack] has the last element of the Python list at
    its head, so [pop()] takes the head and [append] conses.  [var_i] is
    the local [i] of the statement loop ([None] while unbound). *)
Record WalkState := {
  run_stack : list RunWrapper;
  scanned_runs : gmap nat nat;
  ddg : gmap Z (gmap Z (gset source));
  symbolic_mem_ops : list (SimRun * SimRef);
  var_i : option Z
}.

Section Walk.
(** The collaborators: the CFG and the engine's [run.reanalyze]. *)
Variable get_successors : SimRun -> list SimRun.
Variable reanalyze : SimRun -> option SimState -> SimRun.
Variable initial_irsb : SimRun.

Definition stack_ubound : Z := any (sp_value (initial_state initial_irsb)).
Definition stack_lbound : Z := stack_ubound - 8192.

(** [scanned_runs[r]] of a [defaultdict(int)]. *)
Definition scan_count (scanned : gmap nat nat) (r : SimRun) : nat :=
  default 0%nat (scanned !! rid r).

(** Line 362-367: the state of the first pending exit that goes to
    [succ_addr], [None] (after a warning) when there is none. *)
Definition successor_state (pending_exits : list SimExit) (succ_addr : Z)
  : option SimState :=
  match filter (fun ex => concretize ex = succ_addr) pending_exits with
  | ex :: _ => Some (state ex)
  | [] => None
  end.

(** Lines 369-388: the call stack handed to a successor, from a copy of
    the current one and the jumpkind of the first exit of [new_run]. *)
Definition successor_call_stack (new_run : SimRun) (st : option SimState)
    (cs : CallStack) : Result CallStack :=
  ex0 ← py_index (exits new_run) 0;
  match jumpkind ex0 with
  | Ijk_Call =>
      s ← of_option AttributeError st;
      Ok (cs ++ [new_StackFrame (Some (any (sp_value s)))])
  | Ijk_Ret =>
      if (1 <? length cs)%nat then Ok (removelast cs) else Ok cs
  | Ijk_Boring => Ok cs
  end.

(** Lines 341-395: the body of [for successor in successors], on the
    pending stack and [succ_targets]. *)
Definition expand_successor (new_run : SimRun) (scanned : gmap nat nat)
    (cs : CallStack) (flag : bool) (successor : SimRun)
    (acc : list RunWrapper * gset Z) : Result (list RunWrapper * gset Z) :=
  let '(stack, succ_targets) := acc in
  let skip := match scanned !! rid successor with
              | Some n => negb (flag && (n <? MAX_BBL_ANALYZE_TIMES)%nat)
              | None => false
              end in
  if skip then Ok acc
  else if existsb (fun s => (rid (run s) =? rid successor)%nat) stack then Ok acc
  else
    let succ_addr := run_addr successor in
    if bool_decide (succ_addr ∈ succ_targets) then Ok acc
    else
      let new_state := successor_state (exits new_run) succ_addr in
      new_call_stack ← successor_call_stack new_run new_state cs;
      Ok ({| run := successor; new_state := new_state;
             call_stack := new_call_stack;
             reanalyze_successors := flag |} :: stack,
          succ_targets ∪ {[succ_addr]}).

Fixpoint expand_successors (new_run : SimRun) (scanned : gmap nat nat)
    (cs : CallStack) (flag : bool) (successors : list SimRun)
    (acc : list RunWrapper * gset Z) : Result (list RunWrapper * gset Z) :=
  match successors with
  | [] => Ok acc
  | successor :: rest =>
      acc1 ← expand_successor new_run scanned cs flag successor acc;
      expand_successors new_run scanned cs flag rest acc1
  end.

(** Lines 229-334: the references of the reanalysed run. *)
Definition process_run (old_run new_run : SimRun) (i : option Z) (s : Scan)
  : Result (Scan * option Z) :=
  match body new_run with
  | SimIRSB stmts =>
      s1 ← process_stmts stack_lbound stack_ubound old_run (run_addr new_run) 0 stmts s;
      Ok (s1, loop_var_after i stmts)
  | SimProcedure rs =>
      s1 ← process_proc_refs stack_lbound stack_ubound old_run (run_addr new_run) i rs s;
      Ok (s1, i)
  end.

(** Lines 215-395: one iteration of [while len(run_stack) > 0], for the
    popped wrapper [w] and the rest of the pending stack.  The logging call
    at line 218 reads [scanned_runs[run]] and so creates the entry with 0;
    the increment that follows, or the entry that the skip branch needs,
    makes that invisible. *)
Definition walk_iteration (w : RunWrapper) (rest : list RunWrapper)
    (st : WalkState) : Result WalkState :=
  let r := run w in
  if (MAX_BBL_ANALYZE_TIMES <? scan_count (scanned_runs st) r)%nat then
    Ok {| run_stack := rest; scanned_runs := scanned_runs st; ddg := ddg st;
          symbolic_mem_ops := symbolic_mem_ops st; var_i := var_i st |}
  else
    let scanned := <[rid r := S (scan_count (scanned_runs st) r)]> (scanned_runs st) in
    let new_run := reanalyze r (new_state w) in
    '(s, i) ← process_run r new_run (var_i st)
                {| sc_stack := call_stack w; sc_flag := reanalyze_successors w;
                   sc_ddg := ddg st; sc_sym := symbolic_mem_ops st |};
    '(stack, _) ← expand_successors new_run scanned (sc_stack s) (sc_flag s)
                    (get_successors r) (rest, ∅);
    Ok {| run_stack := stack; scanned_runs := scanned; ddg := sc_ddg s;
          symbolic_mem_ops := sc_sym s; var_i := i |}.

Definition walk_step (st : WalkState) : Result WalkState :=
  match run_stack st with
  | [] => Ok st
  | w :: rest => walk_iteration w rest st
  end.

(** Lines 173-191: the state on entry to the loop. *)
Definition walk_init : WalkState :=
  {| run_stack := [ {| run := initial_irsb; new_state := None;
                       call_stack := [new_StackFrame (Some stack_ubound)];
                       reanalyze_successors := false |} ];
     scanned_runs := ∅; ddg := ∅; symbolic_mem_ops := []; var_i := None |}.

(** The [while] loop: [None] when [fuel] iterations did not empty the
    pending stack. *)
Fixpoint walk_loop (fuel : nat) (st : WalkState) : option (Result WalkState) :=
  match run_stack st with
  | [] => Some (Ok st)
  | _ =>
      match fuel with
      | O => None
      | S fuel' =>
          match walk_step st with
          | Ok st' => walk_loop fuel' st'
          | Err e => Some (Err e)
          end
      end
  end.

End Walk.

(** ** The use-def tracer [_trace_source] *)

(** The store of the [set] objects that hold register dependencies.  A
    location is the position at which the object was created. *)
Abbreviation Heap := (list (gset Z)).

Definition heap_get (h : Heap) (l : nat) : gset Z := default ∅ (h !! l).

Definition heap_alloc (s : gset Z) (h : Heap) : Heap * nat := (h ++ [s], length h).

(** An entry [(run, stmt_id, reg_deps, tmp_deps)] of the tracer's stack.
    [reg_deps] is a reference into the store; [tmp_deps] is only ever
    reachable from its entry and is kept by value. *)
Record TraceEntry := {
  te_run : SimRun;
  te_stmt_id : Z;
  te_reg_deps : nat;
  te_tmp_deps : gset Z
}.

(** [stack] has the last element of the Python list at its head; [traced]
    maps a run address to the set object memoized for it. *)
Record TraceState := {
  heap : Heap;
  stack : list TraceEntry;
  traced : gmap Z nat;
  sources : gset source
}.

(** The set currently memoized for address [a], if any. *)
Definition traced_set (st : TraceState) (a : Z) : option (gset Z) :=
  heap_get (heap st) <$> traced st !! a.

(** Lines 35-48: the register and temporary dependencies the trace starts
    from, read off the reference [real_ref]. *)
Definition seed_deps (real_ref : SimRef) : gset Z * gset Z :=
  match real_ref with
  | SimMemWrite _ _ ard atd drd dtd =>
      (∅ ∪ list_to_set drd ∪ list_to_set ard, ∅ ∪ list_to_set dtd ∪ list_to_set atd)
  | SimMemRead _ _ ard atd _ _ =>
      (∅ ∪ list_to_set ard, ∅ ∪ list_to_set atd)
  | _ =>
      (∅ ∪ list_to_set (ref_data_reg_deps real_ref),
       ∅ ∪ list_to_set (ref_data_tmp_deps real_ref))
  end.

(** [run.statements]: only a [SimIRSB] has the attribute. *)
Definition run_statements (r : SimRun) : Result (list Stmt) :=
  match body r with
  | SimIRSB stmts => Ok stmts
  | SimProcedure _ => Err AttributeError
  end.

(** Line 37: [init_run.statements[init_stmt_id].refs[-1]]. *)
Definition seed_ref (init_run : SimRun) (init_ref : SimRef) : Result SimRef :=
  stmts ← run_statements init_run;
  stmt ← py_index stmts (ref_stmt_idx init_ref);
  py_index (refs stmt) (-1).

(** Lines 30-49: the state on entry to the loop. *)
Definition trace_init (init_run : SimRun) (init_ref : SimRef) : Result TraceState :=
  real_ref ← seed_ref init_run init_ref;
  Ok {| heap := [ (seed_deps real_ref).1 ];
        stack := [ {| te_run := init_run; te_stmt_id := ref_stmt_idx init_ref;
                      te_reg_deps := 0%nat;
                      te_tmp_deps := (seed_deps real_ref).2 |} ];
        traced := ∅;
        sources := ∅ |}.

(** What the walk over one run updates: the store (through the location
    of [reg_deps]), [tmp_deps] and [reg_dep_to_stmt_id]. *)
Record Visit := {
  v_heap : Heap;
  v_tmp : gset Z;
  v_map : gmap Z Z
}.

(** Lines 69-77 and 82-90: a register or temporary write that defines a
    pending dependency replaces it, in place, by its own dependencies. *)
Definition visit_ref (l : nat) (stmt_id : Z) (ref : SimRef) (v : Visit) : Visit :=
  match ref with
  | SimRegWrite _ off drd dtd =>
      if bool_decide (off ∈ heap_get (v_heap v) l) then
        {| v_heap := <[l := heap_get (v_heap v) l ∖ {[off]} ∪ list_to_set drd]> (v_heap v);
           v_tmp := v_tmp v ∪ list_to_set dtd;
           v_map := <[off := stmt_id]> (v_map v) |}
      else v
  | SimTmpWrite _ t drd dtd =>
      if bool_decide (t ∈ v_tmp v) then
        {| v_heap := <[l := heap_get (v_heap v) l ∪ list_to_set drd]> (v_heap v);
           v_tmp := v_tmp v ∖ {[t]} ∪ list_to_set dtd;
           v_map := v_map v |}
      else v
  | _ => v
  end.

(** Lines 59-63: the statement indices to walk, last first. *)
Definition stmt_ids (stmts : list Stmt) (stmt_id : Z) : list nat :=
  rev (seq 0 (if stmt_id =? -1 then length stmts else Z.to_nat (stmt_id + 1))).

(** Lines 65-77. *)
Fixpoint visit_stmts (stmts : list Stmt) (l : nat) (ids : list nat) (v : Visit)
  : Result Visit :=
  match ids with
  | [] => Ok v
  | k :: rest =>
      stmt ← of_option IndexError (stmts !! k);
      visit_stmts stmts l rest
        match last (refs stmt) with
        | Some real_ref => visit_ref l (Z.of_nat k) real_ref v
        | None => v
        end
  end.

(** Lines 57-90: the walk over the popped run. *)
Definition visit_run (r : SimRun) (stmt_id : Z) (l : nat) (v : Visit) : Result Visit :=
  match body r with
  | SimIRSB stmts => visit_stmts stmts l (stmt_ids stmts stmt_id) v
  | SimProcedure rs => Ok (foldl (fun v ref => visit_ref l (-1) ref v) v (rev rs))
  end.

(** Line 114: the source that stands for a register never written. *)
Definition sentinel_source (reg : Z) : source := (-1 * reg, -1).

Section Trace.
Variable get_predecessors : SimRun -> list SimRun.

(** Lines 96-103: one predecessor [s] of the popped run, whose
    dependencies are now [reg_deps]. *)
Definition push_predecessor (reg_deps : gset Z) (traced : gmap Z nat)
    (s : SimRun) (acc : Heap * list TraceEntry) : Heap * list TraceEntry :=
  let '(h, stk) := acc in
  match traced !! run_addr s with
  | None =>
      let '(h', l') := heap_alloc reg_deps h in
      (h', {| te_run := s; te_stmt_id := -1; te_reg_deps := l'; te_tmp_deps := ∅ |} :: stk)
  | Some lo =>
      let old_reg_deps := heap_get h lo in
      if bool_decide (reg_deps ⊆ old_reg_deps) then acc
      else
        let '(h', l') := heap_alloc (reg_deps ∪ old_reg_deps) h in
        (h', {| te_run := s; te_stmt_id := -1; te_reg_deps := l'; te_tmp_deps := ∅ |} :: stk)
  end.

(** Line 54: [traced[run.addr] = reg_deps] stores the object itself. *)
Definition trace_record (e : TraceEntry) (rest : list TraceEntry)
    (st : TraceState) : TraceState :=
  {| heap := heap st; stack := rest;
     traced := <[run_addr (te_run e) := te_reg_deps e]> (traced st);
     sources := sources st |}.

(** Lines 104-105. *)
Definition resolved_sources (a : Z) (m : gmap Z Z) : gset source :=
  list_to_set ((fun p : Z * Z => (a, p.2)) <$> map_to_list m).

(** Lines 106-118. *)
Definition sentinel_sources (reg_deps : gset Z) (m : gmap Z Z)
    (predecessors : list SimRun) : gset source :=
  if bool_decide (reg_deps = ∅) || bool_decide (predecessors = [])
  then set_map sentinel_source (reg_deps ∖ dom m)
  else ∅.

(** Lines 55-118, from the state [trace_record] leaves. *)
Definition trace_visit (e : TraceEntry) (st : TraceState) : Result TraceState :=
  let r := te_run e in
  let l := te_reg_deps e in
  v ← visit_run r (te_stmt_id e) l
        {| v_heap := heap st; v_tmp := te_tmp_deps e; v_map := ∅ |};
  let reg_deps := heap_get (v_heap v) l in
  let predecessors := get_predecessors r in
  let '(h, stk) :=
    if bool_decide (reg_deps = ∅) then (v_heap v, stack st)
    else foldl (fun acc s => push_predecessor reg_deps (traced st) s acc)
               (v_heap v, stack st) predecessors in
  Ok {| heap := h; stack := stk; traced := traced st;
        sources := sources st ∪ resolved_sources (run_addr r) (v_map v)
                     ∪ sentinel_sources reg_deps (v_map v) predecessors |}.

Definition trace_step (st : TraceState) : Result TraceState :=
  match stack st with
  | [] => Ok st
  | e :: rest => trace_visit e (trace_record e rest st)
  end.

(** The [while] loop and the [return]: [None] when [fuel] iterations did
    not empty the stack. *)
Fixpoint trace_loop (fuel : nat) (st : TraceState) : option (Result (gset source)) :=
  match stack st with
  | [] => Some (Ok (sources st))
  | _ =>
      match fuel with
      | O => None
      | S fuel' =>
          match trace_step st with
          | Ok st' => trace_loop fuel' st'
          | Err e => Some (Err e)
          end
      end
  end.

Definition trace_source (fuel : nat) (init_run : SimRun) (init_ref : SimRef)
  : option (Result (gset source)) :=
  match trace_init init_run init_ref with
  | Ok st => trace_loop fuel st
  | Err e => Some (Err e)
  end.

(** ** [_solve_symbolic_mem_operations] *)

(** [d[src].append(x)] on a [defaultdict(list)]. *)
Definition add_producer (src : source) (x : Z * SimRef)
    (d : gmap source (list (Z * SimRef))) : gmap source (list (Z * SimRef)) :=
  <[src := default [] (d !! src) ++ [x]]> d.

(** Lines 136-140, for one source. *)
Definition file_source (irsb : SimRun) (ref : SimRef)
    (acc : gmap source (list (Z * SimRef)) * gmap source (list (Z * SimRef)))
    (src : source) :=
  match ref with
  | SimMemRead _ _ _ _ _ _ => (add_producer src (run_addr irsb, ref) acc.1, acc.2)
  | SimMemWrite _ _ _ _ _ _ => (acc.1, add_producer src (run_addr irsb, ref) acc.2)
  | _ => acc
  end.

(** Lines 134-140: [(mem_read_producers, mem_write_producers)]. *)
Fixpoint collect_producers (fuel : nat) (ops : list (SimRun * SimRef))
    (acc : gmap source (list (Z * SimRef)) * gmap source (list (Z * SimRef)))
  : option (Result (gmap source (list (Z * SimRef)) * gmap source (list (Z * SimRef)))) :=
  match ops with
  | [] => Some (Ok acc)
  | (irsb, ref) :: rest =>
      match trace_source fuel irsb ref with
      | None => None
      | Some (Err e) => Some (Err e)
      | Some (Ok srcs) =>
          collect_producers fuel rest (foldl (file_source irsb ref) acc (elements srcs))
      end
  end.

(** Lines 145-147: every read of [lst_reads] against every write of
    [lst_writes]. *)
Definition link_pairs (lst_reads lst_writes : list (Z * SimRef))
    (g : gmap Z (gmap Z (gset source))) : gmap Z (gmap Z (gset source)) :=
  foldl (fun g rd =>
           foldl (fun g wr => ddg_add rd.1 (ref_stmt_idx rd.2) (wr.1, ref_stmt_idx wr.2) g)
                 g lst_writes)
        g lst_reads.

(** Lines 142-147. *)
Definition link_producers (reads writes : gmap source (list (Z * SimRef)))
    (g : gmap Z (gmap Z (gset source))) : gmap Z (gmap Z (gset source)) :=
  foldl (fun g (kv : source * list (Z * SimRef)) =>
           match reads !! kv.1 with
           | Some lst_reads => link_pairs lst_reads kv.2 g
           | None => g
           end)
        g (map_to_list writes).

Definition solve_symbolic_mem_operations (fuel : nat)
    (ops : list (SimRun * SimRef)) (g : gmap Z (gmap Z (gset source)))
  : option (Result (gmap Z (gmap Z (gset source)))) :=
  match collect_producers fuel ops (∅, ∅) with
  | None => None
  | Some (Err e) => Some (Err e)
  | Some (Ok (reads, writes)) => Some (Ok (link_producers reads writes g))
  end.

(** ** [construct] *)

Variable get_successors : SimRun -> list SimRun.
Variable reanalyze : SimRun -> option SimState -> SimRun.
Variable initial_irsb : SimRun.

(** The forward walk followed by the reconciliation pass; the result is
    [self._ddg]. *)
Definition construct (fuel : nat) : option (Result (gmap Z (gmap Z (gset source)))) :=
  match walk_loop get_successors reanalyze initial_irsb fuel (walk_init initial_irsb) with
  | None => None
  | Some (Err e) => Some (Err e)
  | Some (Ok st) => solve_symbolic_mem_operations fuel (symbolic_mem_ops st) (ddg st)
  end.

End Trace.

(** ** Notions used to state the properties *)

(** A frame takes [addr] when its [initial_sp] is [None] or lies strictly
    above [addr]. *)
Definition frame_takes (addr : Z) (fr : StackFrame) : Prop :=
  match initial_sp fr with
  | None => True
  | Some sp => addr < sp
  end.

(** ** Example inputs *)

Definition st0 : SimState := {| sp_value := concrete 0x80000000 |}.

(** A block whose only statement loads through a pointer and assigns the
    result to a temporary: the [SimMemRead] is a sub-expression, the
    [SimTmpWrite] is the statement's last reference. *)
Definition inner_read : SimRef := SimMemRead 0 (symbolic 0) [1] [] [] [].
Definition load_block : SimRun :=
  {| rid := 0; run_addr := 0x100;
     body := SimIRSB [ {| refs := [inner_read; SimTmpWrite 0 7 [2] []] |} ];
     exits := []; initial_state := st0 |}.

(** A block without predecessors that reads memory through registers 0
    and 5, neither of which it writes. *)
Definition reg0_read : SimRef := SimMemRead 0 (symbolic 0) [0; 5] [] [] [].
Definition reg0_block : SimRun :=
  {| rid := 0; run_addr := 0x300;
     body := SimIRSB [ {| refs := [reg0_read] |} ];
     exits := []; initial_state := st0 |}.

(** Two blocks that are each other's only predecessor.  [cyc_A] computes
    register 1 from register 2 and then reads memory through register 1;
    [cyc_B] computes register 2 from register 1. *)
Definition cyc_read : SimRef := SimMemRead 1 (symbolic 0) [1] [] [] [].
Definition cyc_A : SimRun :=
  {| rid := 0; run_addr := 0x100;
     body := SimIRSB [ {| refs := [SimRegWrite 0 1 [2] []] |};
                       {| refs := [cyc_read] |} ];
     exits := []; initial_state := st0 |}.
Definition cyc_B : SimRun :=
  {| rid := 1; run_addr := 0x200;
     body := SimIRSB [ {| refs := [SimRegWrite 0 2 [1] []] |} ];
     exits := []; initial_state := st0 |}.
Definition cyc_predecessors (r : SimRun) : list SimRun :=
  match rid r with
  | 0%nat => [cyc_B]
  | 1%nat => [cyc_A]
  | _ => []
  end.

(** The states in which the tracer cycles on that CFG: the only pending
    entry asks for registers 1 and 2 at run [r], and the set memoized for
    [other] is [memo], which does not contain both. *)
Definition cyc_pending (r : SimRun) (other : Z) (memo : gset Z) (st : TraceState) : Prop :=
  ∃ l lo,
    stack st = [ {| te_run := r; te_stmt_id := -1; te_reg_deps := l; te_tmp_deps := ∅ |} ] ∧
    heap st !! l = Some ({[1; 2]} : gset Z) ∧
    traced st !! other = Some lo ∧
    heap st !! lo = Some memo ∧
    lo ≠ l.

Definition cyc_inv (st : TraceState) : Prop :=
  cyc_pending cyc_A 0x200 {[1]} st ∨ cyc_pending cyc_B 0x100 {[2]} st.


(** The tracer's state on that CFG after two iterations of the loop,
    started at [(cyc_A, cyc_read)]. *)
Definition cyc_state2 : TraceState :=
  {| heap := [ {[2]}; {[1]}; {[1; 2]} ];
     stack := [ {| te_run := cyc_A; te_stmt_id := -1; te_reg_deps := 2; te_tmp_deps := ∅ |} ];
     traced := {[ 0x100 := 0%nat; 0x200 := 1%nat ]};
     sources := {[ (0x100, 0); (0x200, 0) ]} |}.


(** The two states before it. *)
Definition cyc_state0 : TraceState :=
  {| heap := [ {[1]} ];
     stack := [ {| te_run := cyc_A; te_stmt_id := 1; te_reg_deps := 0; te_tmp_deps := ∅ |} ];
     traced := ∅;
     sources := ∅ |}.
Definition cyc_state1 : TraceState :=
  {| heap := [ {[2]}; {[2]} ];
     stack := [ {| te_run := cyc_B; te_stmt_id := -1; te_reg_deps := 1; te_tmp_deps := ∅ |} ];
     traced := {[ 0x100 := 0%nat ]};
     sources := {[ (0x100, 0) ]} |}.


(** The state after the third iteration. *)
Definition cyc_state3 : TraceState :=
  {| heap := [ {[2]}; {[1]}; {[2]}; {[1; 2]} ];
     stack := [ {| te_run := cyc_B; te_stmt_id := -1; te_reg_deps := 3; te_tmp_deps := ∅ |} ];
     traced := {[ 0x100 := 2%nat; 0x200 := 1%nat ]};
     sources := {[ (0x100, 0); (0x200, 0) ]} |}.


(** A block followed by a summary run that reads memory at a symbolic
    address. *)
Definition sym_proc_read : SimRef := SimMemRead (-1) (symbolic 0) [] [] [] [].
Definition sym_entry : SimRun :=
  {| rid := 0; run_addr := 0x100; body := SimIRSB [];
     exits := [ {| concretize := 0x200; jumpkind := Ijk_Boring; state := st0 |} ];
     initial_state := st0 |}.
Definition sym_proc : SimRun :=
  {| rid := 1; run_addr := 0x200; body := SimProcedure [sym_proc_read];
     exits := []; initial_state := st0 |}.
Definition sym_successors (r : SimRun) : list SimRun :=
  match rid r with
  | 0%nat => [sym_proc]
  | _ => []
  end.

(** A block of three statements, a summary run that writes the global
    address 0x5000, and a block that reads it back. *)
Definition wr_entry : SimRun :=
  {| rid := 0; run_addr := 0x100;
     body := SimIRSB [ {| refs := [SimTmpWrite 0 0 [] []] |};
                       {| refs := [SimTmpWrite 1 1 [] [0]] |};
                       {| refs := [SimRegWrite 2 16 [] [1]] |} ];
     exits := [ {| concretize := 0x200; jumpkind := Ijk_Boring; state := st0 |} ];
     initial_state := st0 |}.
Definition wr_proc : SimRun :=
  {| rid := 1; run_addr := 0x200;
     body := SimProcedure [SimMemWrite (-1) (concrete 0x5000) [] [] [] []];
     exits := [ {| concretize := 0x300; jumpkind := Ijk_Boring; state := st0 |} ];
     initial_state := st0 |}.
Definition wr_reader : SimRun :=
  {| rid := 2; run_addr := 0x300;
     body := SimIRSB [ {| refs := [SimMemRead 0 (concrete 0x5000) [] [] [] [];
                                   SimTmpWrite 0 3 [] []] |} ];
     exits := []; initial_state := st0 |}.
Definition wr_successors (r : SimRun) : list SimRun :=
  match rid r with
  | 0%nat => [wr_proc]
  | 1%nat => [wr_reader]
  | _ => []
  end.

(** A block whose only exit goes to 0x400 with jumpkind [jk], while its
    successor in the CFG is the block at 0x200. *)
Definition miss_entry (jk : JumpKind) : SimRun :=
  {| rid := 0; run_addr := 0x100; body := SimIRSB [];
     exits := [ {| concretize := 0x400; jumpkind := jk; state := st0 |} ];
     initial_state := st0 |}.
Definition miss_next : SimRun :=
  {| rid := 1; run_addr := 0x200; body := SimIRSB []; exits := [];
     initial_state := st0 |}.
Definition miss_successors (r : SimRun) : list SimRun :=
  match rid r with
  | 0%nat => [miss_next]
  | _ => []
  end.

(** An engine that hands every run back unchanged. *)
Definition same_run (r : SimRun) (_ : option SimState) : SimRun := r.

Definition no_predecessors (_ : SimRun) : list SimRun := [].


(** A [SimMemRead] at a concrete address for which the frame lookup finds
    the writer [w]. *)
Definition read_resolves (lbound ubound : Z) (s : Scan) (ref : SimRef) (w : source) : Prop :=
  match ref with
  | SimMemRead _ addr _ _ _ _ =>
      is_symbolic addr = false ∧ lookup_write lbound ubound (any addr) s = Ok (Some w)
  | _ => False
  end.

(** A reference that the read loop passes over: not a [SimMemRead], or one
    at a symbolic address, or one whose concrete address has no writer. *)
Definition read_passes (lbound ubound : Z) (s : Scan) (ref : SimRef) : Prop :=
  match ref with
  | SimMemRead _ addr _ _ _ _ =>
      is_symbolic addr = true ∨ lookup_write lbound ubound (any addr) s = Ok None
  | _ => True
  end.

(** What the read loop does to the symbolic-operation set for a reference
    it passes over. *)
Definition note_symbolic (old_irsb : SimRun) (s : Scan) (ref : SimRef) : Scan :=
  match ref with
  | SimMemRead _ addr _ _ _ _ =>
      if is_symbolic addr then add_sym (old_irsb, ref) s else s
  | _ => s
  end.

(** A [SimMemWrite] / [SimMemRead] at the concrete address [a]. *)
Definition writes_concrete (a : Z) (ref : SimRef) : Prop :=
  match ref with
  | SimMemWrite _ addr _ _ _ _ => is_symbolic addr = false ∧ any addr = a
  | _ => False
  end.
Definition reads_concrete (a : Z) (ref : SimRef) : Prop :=
  match ref with
  | SimMemRead _ addr _ _ _ _ => is_symbolic addr = false ∧ any addr = a
  | _ => False
  end.


(** [x] is listed under [src] in a producer table. *)
Definition produced_by (d : gmap source (list (Z * SimRef))) (src : source)
    (x : Z * SimRef) : Prop :=
  ∃ l, d !! src = Some l ∧ x ∈ l.


(** The states of the forward walk at the head of its [while] loop. *)
Inductive walk_reachable (get_successors : SimRun -> list SimRun)
    (reanalyze : SimRun -> option SimState -> SimRun) (initial_irsb : SimRun)
  : WalkState -> Prop :=
| reach_init :
    walk_reachable get_successors reanalyze initial_irsb (walk_init initial_irsb)
| reach_step st st' :
    walk_reachable get_successors reanalyze initial_irsb st →
    run_stack st ≠ [] →
    walk_step get_successors reanalyze initial_irsb st = Ok st' →
    walk_reachable get_successors reanalyze initial_irsb st'.

(** No run is pending twice, and a pending run has been scanned fewer
    than [MAX_BBL_ANALYZE_TIMES] times. *)
Definition pending_ok (scanned : gmap nat nat) (pending : list RunWrapper) : Prop :=
  NoDup (rid ∘ run <$> pending) ∧
  ∀ w, w ∈ pending →
       (default 0%nat (scanned !! rid (run w)) < MAX_BBL_ANALYZE_TIMES)%nat.

Definition walk_inv (st : WalkState) : Prop :=
  pending_ok (scanned_runs st) (run_stack st) ∧
  ∀ k n, scanned_runs st !! k = Some n → (n ≤ MAX_BBL_ANALYZE_TIMES)%nat.


(** A block without successors that initialises register 8, stores
    through it and loads through it; both addresses are symbolic. *)
Definition ptr_write : SimRef := SimMemWrite 1 (symbolic 0) [8] [] [] [].
Definition ptr_read : SimRef := SimMemRead 2 (symbolic 0) [8] [] [] [].
Definition ptr_block : SimRun :=
  {| rid := 0; run_addr := 0x100;
     body := SimIRSB [ {| refs := [SimRegWrite 0 8 [] []] |};
                       {| refs := [ptr_write] |};
                       {| refs := [ptr_read] |} ];
     exits := []; initial_state := st0 |}.

(** The reference-processing state of a fresh walk: one frame, nothing
    recorded. *)
Definition fresh_scan : Scan :=
  {| sc_stack := [new_StackFrame (Some 0x80000000)]; sc_flag := false;
     sc_ddg := ∅; sc_sym := [] |}.

(** ** Notions for the further properties *)

(** Every edge of [g] is an edge of [g']. *)
Definition ddg_le (g g' : gmap Z (gmap Z (gset source))) : Prop :=
  ∀ a i w, w ∈ ddg_get g a i → w ∈ ddg_get g' a i.

(** What reference processing may do to its state: the frames keep their
    number and their [initial_sp], the DDG and the symbolic-operation set
    only gain elements. *)
Definition scan_grows (s s' : Scan) : Prop :=
  initial_sp <$> sc_stack s' = initial_sp <$> sc_stack s ∧
  ddg_le (sc_ddg s) (sc_ddg s') ∧
  sc_sym s ⊆ sc_sym s'.



Definition stacks_nonempty (pending : list RunWrapper) : Prop :=
  ∀ w, w ∈ pending → call_stack w ≠ [].

(** What the reference loop of a summary run does to the symbolic-operation
    set for a memory reference at a symbolic address. *)
Definition note_symbolic_op (old_sim_proc : SimRun) (s : Scan) (ref : SimRef) : Scan :=
  match ref with
  | SimMemRead _ addr _ _ _ _ | SimMemWrite _ addr _ _ _ _ =>
      if is_symbolic addr then add_sym (old_sim_proc, ref) s else s
  | _ => s
  end.

(** A reference that is not a [SimMemWrite] at a concrete address. *)
Definition no_concrete_write (ref : SimRef) : Prop :=
  match ref with
  | SimMemWrite _ addr _ _ _ _ => is_symbolic addr = true
  | _ => True
  end.

(** A stack entry of the tracer whose start statement is [-1] or an index
    into the statements of its run. *)
Definition entry_ok (e : TraceEntry) : Prop :=
  match body (te_run e) with
  | SimIRSB stmts => te_stmt_id e < Z.of_nat (length stmts)
  | SimProcedure _ => True
  end.

(** Statement [k] of run [r] ends in a write of register [reg]; for a
    summary run, [k] is [-1] and some reference of the run writes [reg]. *)
Definition writes_reg_at (r : SimRun) (k reg : Z) : Prop :=
  match body r with
  | SimIRSB stmts =>
      ∃ stmt i drd dtd, 0 ≤ k ∧ stmts !! Z.to_nat k = Some stmt ∧
                        last (refs stmt) = Some (SimRegWrite i reg drd dtd)
  | SimProcedure rs =>
      k = -1 ∧ ∃ i drd dtd, SimRegWrite i reg drd dtd ∈ rs
  end.

(** The DDG [g'] differs from [g] at most in the rows [(a, i)] with
    [row i]. *)
Definition rows_kept (a : Z) (row : Z → Prop) (g g' : gmap Z (gmap Z (gset source))) : Prop :=
  ∀ a' i', ¬ (a' = a ∧ row i') → ddg_get g' a' i' = ddg_get g a' i'.

(** The statement indices under which a run files its edges. *)
Definition own_rows (r : SimRun) (i : Z) : Prop :=
  match body r with
  | SimIRSB stmts => 0 ≤ i < Z.of_nat (length stmts)
  | SimProcedure _ => i = -1
  end.

(** * Properties *)

(** ** The call-stack tracker *)

Lemma imap_pair_snoc (stack : CallStack) (fr : StackFrame) :
  rev (imap pair (stack ++ [fr])) = (length stack, fr) :: rev (imap pair stack).
Proof.
  rewrite imap_app, rev_app_distr. simpl.
  by rewrite Nat.add_0_r.
Qed.

Lemma scan_frames_rev (stack : CallStack) (addr : Z) :
  match scan_frames (rev (imap pair stack)) addr with
  | Some k =>
      (∃ fr, stack !! k = Some fr ∧ frame_takes addr fr) ∧
      ∀ j fr', (k < j)%nat → stack !! j = Some fr' → ¬ frame_takes addr fr'
  | None => ∀ j fr', stack !! j = Some fr' → ¬ frame_takes addr fr'
  end.
Proof.
  induction stack as [|fr stack IH] using rev_ind.
  - simpl. intros j fr' Hj. by destruct j.
  - rewrite imap_pair_snoc. simpl.
    destruct (initial_sp fr) as [sp|] eqn:Hsp.
    + destruct (Z.ltb_spec addr sp) as [Hlt|Hge].
      * split.
        -- exists fr. split; [by rewrite list_lookup_middle|].
           unfold frame_takes. by rewrite Hsp.
        -- intros j fr' Hj Hl. apply lookup_lt_Some in Hl.
           rewrite length_app in Hl. simpl in Hl. lia.
      * assert (Hfr : ¬ frame_takes addr fr).
        { unfold frame_takes. rewrite Hsp. lia. }
        destruct (scan_frames (rev (imap pair stack)) addr) as [k|].
        -- destruct IH as [(fr0 & Hk & Hown) Hlater]. split.
           ++ exists fr0. split; [|done].
              rewrite lookup_app_l; [done|]. by eapply lookup_lt_Some.
           ++ intros j fr' Hj Hl.
              destruct (decide (j < length stack)%nat) as [Hin|Hout].
              ** rewrite lookup_app_l in Hl by done. by eapply Hlater.
              ** assert (j = length stack) as ->.
                 { apply lookup_lt_Some in Hl. rewrite length_app in Hl.
                   simpl in Hl. lia. }
                 rewrite list_lookup_middle in Hl by done. by simplify_eq.
        -- intros j fr' Hl.
           destruct (decide (j < length stack)%nat) as [Hin|Hout].
           ++ rewrite lookup_app_l in Hl by done. by eapply IH.
           ++ assert (j = length stack) as ->.
              { apply lookup_lt_Some in Hl. rewrite length_app in Hl.
                simpl in Hl. lia. }
              rewrite list_lookup_middle in Hl by done. by simplify_eq.
    + split.
      * exists fr. split; [by rewrite list_lookup_middle|].
        unfold frame_takes. by rewrite Hsp.
      * intros j fr' Hj Hl. apply lookup_lt_Some in Hl.
        rewrite length_app in Hl. simpl in Hl. lia.
Qed.

Lemma find_frame_by_addr_ok (lbound ubound : Z) (stack : CallStack) (addr : Z) :
  stack ≠ [] →
  ∃ k fr, find_frame_by_addr lbound ubound stack addr = Ok k ∧ stack !! k = Some fr.
Proof.
  intros Hne. unfold find_frame_by_addr.
  destruct stack as [|fr0 stack']; [done|]. clear Hne.
  set (stack := fr0 :: stack').
  replace (length stack =? 0)%nat with false by done.
  destruct (negb _); [by exists 0%nat, fr0|].
  pose proof (scan_frames_rev stack addr) as Hscan.
  destruct (scan_frames (rev (imap pair stack)) addr) as [k|].
  - destruct Hscan as [(fr & Hk & _) _]. by exists k, fr.
  - by exists 0%nat, fr0.
Qed.

(** C6.  On a non-empty call stack [_find_frame_by_addr] returns a frame
    of the stack: the outermost one (index 0) when [addr] is outside
    [[stack_lbound, stack_ubound]]; otherwise the innermost frame whose
    [initial_sp] is [None] or strictly greater than [addr] (every frame
    further in refuses [addr]), and the outermost one when no frame
    takes [addr]. *)
Theorem find_frame_by_addr_spec (lbound ubound : Z) (stack : CallStack) (addr : Z) :
  stack ≠ [] →
  ∃ k fr,
    find_frame_by_addr lbound ubound stack addr = Ok k ∧
    stack !! k = Some fr ∧
    ((¬ (lbound ≤ addr ≤ ubound) ∧ k = 0%nat) ∨
     (lbound ≤ addr ≤ ubound ∧
      ((frame_takes addr fr ∧
        ∀ j fr', (k < j)%nat → stack !! j = Some fr' → ¬ frame_takes addr fr') ∨
       (k = 0%nat ∧ ∀ j fr', stack !! j = Some fr' → ¬ frame_takes addr fr')))).
Proof.
  intros Hne. unfold find_frame_by_addr.
  destruct stack as [|fr0 stack']; [done|]. clear Hne.
  set (stack := fr0 :: stack').
  replace (length stack =? 0)%nat with false by done.
  destruct (Z.leb_spec lbound addr) as [Hl|Hl];
    destruct (Z.leb_spec addr ubound) as [Hu|Hu]; cbn [andb negb];
    try (exists 0%nat, fr0; split; [done|]; split; [done|]; left; split; [lia|done]).
  pose proof (scan_frames_rev stack addr) as Hscan.
  destruct (scan_frames (rev (imap pair stack)) addr) as [k|].
  - destruct Hscan as [(fr & Hk & Hown) Hlater].
    exists k, fr. split; [done|]. split; [done|]. right. split; [lia|]. by left.
  - exists 0%nat, fr0. split; [done|]. split; [done|]. right. split; [lia|]. by right.
Qed.

Lemma find_frame_by_addr_spec_witness :
  ∃ k fr,
    find_frame_by_addr 100 200 [new_StackFrame (Some 200); new_StackFrame (Some 150)] 160
      = Ok k ∧
    [new_StackFrame (Some 200); new_StackFrame (Some 150)] !! k = Some fr ∧
    k = 0%nat ∧ frame_takes 160 fr.
Proof.
  destruct (find_frame_by_addr_spec 100 200
              [new_StackFrame (Some 200); new_StackFrame (Some 150)] 160)
    as (k & fr & Hf & Hk & Hcase); [done|].
  exists k, fr. split; [done|]. split; [done|].
  vm_compute in Hf. injection Hf as <-.
  split; [done|]. injection Hk as <-. vm_compute. done.
Defined.

(** ** The seed of the tracer *)

Lemma py_index_last {A} (l : list A) : py_index l (-1) = of_option IndexError (last l).
Proof.
  unfold py_index. simpl.
  destruct l as [|x l] using rev_ind; [done|].
  rewrite length_app, last_snoc. simpl.
  destruct (Z.leb_spec 0 (Z.of_nat (length l + 1) + -1)); [|lia].
  replace (Z.to_nat (Z.of_nat (length l + 1) + -1)) with (length l) by lia.
  by rewrite list_lookup_middle.
Qed.

(** C7.  The trace of [(init_run, init_ref)] starts with one entry at
    statement [init_ref.stmt_idx] of [init_run] whose dependencies are
    those of [real_ref], the last reference of that statement: address and
    data dependencies for a [SimMemWrite], address dependencies only for a
    [SimMemRead], data dependencies for every other kind.  In particular,
    when [init_ref] is that last reference, its own kind decides. *)
Theorem trace_init_seed (init_run : SimRun) (init_ref : SimRef) (st : TraceState) :
  trace_init init_run init_ref = Ok st →
  ∃ stmts stmt real_ref l tmp_deps,
    body init_run = SimIRSB stmts ∧
    py_index stmts (ref_stmt_idx init_ref) = Ok stmt ∧
    last (refs stmt) = Some real_ref ∧
    stack st = [ {| te_run := init_run; te_stmt_id := ref_stmt_idx init_ref;
                    te_reg_deps := l; te_tmp_deps := tmp_deps |} ] ∧
    match real_ref with
    | SimMemWrite _ _ ard atd drd dtd =>
        heap_get (heap st) l = list_to_set ard ∪ list_to_set drd ∧
        tmp_deps = list_to_set atd ∪ list_to_set dtd
    | SimMemRead _ _ ard atd _ _ =>
        heap_get (heap st) l = list_to_set ard ∧ tmp_deps = list_to_set atd
    | _ =>
        heap_get (heap st) l = list_to_set (ref_data_reg_deps real_ref) ∧
        tmp_deps = list_to_set (ref_data_tmp_deps real_ref)
    end.
Proof.
  unfold trace_init, seed_ref, run_statements. intros H.
  destruct (body init_run) as [stmts|rs] eqn:Hbody; [|done].
  simpl in H.
  destruct (py_index stmts (ref_stmt_idx init_ref)) as [stmt|] eqn:Hstmt; [|done].
  simpl in H. rewrite py_index_last in H.
  destruct (last (refs stmt)) as [real_ref|] eqn:Hlast; [|done].
  simpl in H. injection H as <-.
  exists stmts, stmt, real_ref, 0%nat, (seed_deps real_ref).2.
  repeat (split; [done|]).
  destruct real_ref; simpl; unfold heap_get; simpl;
    rewrite !(left_id_L ∅ (∪)); split; try done; apply (comm_L (∪)).
Qed.

Lemma trace_init_seed_witness :
  ∃ st, trace_init reg0_block reg0_read = Ok st ∧
        heap_get (heap st) 0 = list_to_set [0; 5].
Proof.
  destruct (trace_init reg0_block reg0_read) as [st|] eqn:H; [|by vm_compute in H].
  exists st. split; [done|].
  destruct (trace_init_seed reg0_block reg0_read st H)
    as (stmts & stmt & real_ref & l & tmps & Hb & Hs & Hl & Hst & Hseed).
  injection Hb as <-. vm_compute in Hs. injection Hs as <-.
  vm_compute in Hl. injection Hl as <-.
  vm_compute in H. injection H as <-.
  vm_compute. reflexivity.
Defined.

(** C7, as first stated, fails when the traced reference is not the last
    one of its statement: the [SimMemRead] of [load_block] has address
    dependency register 1, yet its trace starts from register 2, the data
    dependency of the [SimTmpWrite] that ends the statement. *)
Lemma trace_init_inner_read :
  is_mem_read inner_read = true ∧
  ∃ st e, trace_init load_block inner_read = Ok st ∧ stack st = [e] ∧
          heap_get (heap st) (te_reg_deps e) = {[2]} ∧
          heap_get (heap st) (te_reg_deps e) ≠ list_to_set [1].
Proof.
  split; [done|].
  eexists _, _. split; [vm_compute; reflexivity|]. split; [reflexivity|].
  split; [vm_compute; reflexivity|].
  intros H. vm_compute in H. discriminate H.
Qed.
(** ** Sources of the tracer *)

Section TraceFacts.
Variable get_predecessors : SimRun -> list SimRun.

Lemma trace_visit_sources (e : TraceEntry) (st st' : TraceState) :
  trace_visit get_predecessors e st = Ok st' →
  ∃ v,
    visit_run (te_run e) (te_stmt_id e) (te_reg_deps e)
      {| v_heap := heap st; v_tmp := te_tmp_deps e; v_map := ∅ |} = Ok v ∧
    traced st' = traced st ∧
    sources st' =
      sources st ∪ resolved_sources (run_addr (te_run e)) (v_map v)
        ∪ sentinel_sources (heap_get (v_heap v) (te_reg_deps e)) (v_map v)
            (get_predecessors (te_run e)).
Proof.
  unfold trace_visit. intros H.
  destruct (visit_run _ _ _ _) as [v|] eqn:Hv; [|done]. simpl in H.
  exists v. split; [done|].
  destruct (if bool_decide (heap_get (v_heap v) (te_reg_deps e) = ∅) then _ else _)
    as [h stk].
  by injection H as <-.
Qed.

Lemma trace_step_sources (st st' : TraceState) :
  trace_step get_predecessors st = Ok st' → sources st ⊆ sources st'.
Proof.
  unfold trace_step. destruct (stack st) as [|e rest].
  - by intros [= <-].
  - intros H. apply trace_visit_sources in H as (v & _ & _ & ->). simpl.
    intros x Hx. apply elem_of_union_l, elem_of_union_l, Hx.
Qed.

Lemma trace_loop_sources (fuel : nat) (st : TraceState) (srcs : gset source) :
  trace_loop get_predecessors fuel st = Some (Ok srcs) → sources st ⊆ srcs.
Proof.
  revert st. induction fuel as [|fuel IH]; intros st; simpl.
  - destruct (stack st); [|done]. by intros [= <-].
  - destruct (stack st) eqn:Hstk; [by intros [= <-]|].
    destruct (trace_step get_predecessors st) as [st'|] eqn:Hstep; [|done].
    intros H. etrans; [by apply trace_step_sources|by apply IH].
Qed.

(** C5.  When the walk over the popped run leaves no register dependency
    or the run has no predecessor, every register [reg] that is still a
    dependency and was not written in this run gets the source
    [(-reg, -1)], which stays in the result of the trace; its address is
    negative for every register offset above 0. *)
Theorem sentinel_emitted (e : TraceEntry) (st : TraceState) (v : Visit) (reg : Z) :
  visit_run (te_run e) (te_stmt_id e) (te_reg_deps e)
    {| v_heap := heap st; v_tmp := te_tmp_deps e; v_map := ∅ |} = Ok v →
  heap_get (v_heap v) (te_reg_deps e) = ∅ ∨ get_predecessors (te_run e) = [] →
  reg ∈ heap_get (v_heap v) (te_reg_deps e) →
  reg ∉ dom (v_map v) →
  ∃ st',
    trace_visit get_predecessors e st = Ok st' ∧
    sentinel_source reg ∈ sources st' ∧
    (∀ fuel srcs, trace_loop get_predecessors fuel st' = Some (Ok srcs) →
                  sentinel_source reg ∈ srcs) ∧
    sentinel_source reg = (- reg, -1) ∧
    (0 < reg → (sentinel_source reg).1 < 0).
Proof.
  intros Hv Hend Hin Hnew.
  destruct (trace_visit get_predecessors e st) as [st'|err] eqn:Hvisit.
  - exists st'. split; [done|].
    assert (Hsrc : sentinel_source reg ∈ sources st').
    { apply trace_visit_sources in Hvisit as (v' & Hv' & _ & ->).
      rewrite Hv in Hv'. injection Hv' as <-.
      apply elem_of_union_r. unfold sentinel_sources.
      assert (bool_decide (heap_get (v_heap v) (te_reg_deps e) = ∅)
              || bool_decide (get_predecessors (te_run e) = []) = true) as ->.
      { destruct Hend as [->| ->]; [done|]. apply orb_true_r. }
      apply elem_of_map. exists reg. split; [done|].
      by apply elem_of_difference. }
    split; [done|]. split.
    { intros fuel srcs Hloop. by eapply trace_loop_sources. }
    split; [unfold sentinel_source; f_equal; lia|].
    unfold sentinel_source. simpl. lia.
  - exfalso. unfold trace_visit in Hvisit. rewrite Hv in Hvisit. simpl in Hvisit.
    by destruct (if bool_decide (heap_get (v_heap v) (te_reg_deps e) = ∅) then _ else _).
Qed.

End TraceFacts.

Lemma sentinel_emitted_witness :
  ∃ st', trace_step (fun _ => []) {| heap := [ {[0; 5]} ];
                                     stack := [ {| te_run := reg0_block; te_stmt_id := 0;
                                                   te_reg_deps := 0; te_tmp_deps := ∅ |} ];
                                     traced := ∅; sources := ∅ |} = Ok st' ∧
         (-5, -1) ∈ sources st'.
Proof.
  destruct (sentinel_emitted (fun _ => [])
              {| te_run := reg0_block; te_stmt_id := 0; te_reg_deps := 0; te_tmp_deps := ∅ |}
              {| heap := [ {[0; 5]} ]; stack := []; traced := {[ 0x300 := 0%nat ]};
                 sources := ∅ |}
              {| v_heap := [ {[0; 5]} ]; v_tmp := ∅; v_map := ∅ |} 5)
    as (st' & Hvisit & Hin & _).
  - reflexivity.
  - by right.
  - apply (bool_decide_unpack _). by vm_compute.
  - simpl. rewrite dom_empty_L. apply not_elem_of_empty.
  - exists st'. split; [exact Hvisit|exact Hin].
Defined.

(** C5, as first stated, fails for register offset 0: the trace of
    [reg0_read] ends with registers 0 and 5 never written, and the source
    emitted for register 0 is [(0, -1)], whose address is not negative. *)
Lemma sentinel_of_register_0 :
  ∃ srcs, trace_source (fun _ => []) 1 reg0_block reg0_read = Some (Ok srcs) ∧
          sentinel_source 0 ∈ srcs ∧
          ¬ (sentinel_source 0).1 < 0.
Proof.
  exists {[ (0, -1); (-5, -1) ]}. split; [vm_compute; reflexivity|]. split.
  - apply (bool_decide_unpack _). by vm_compute.
  - simpl. lia.
Qed.

(** ** The memo table of the tracer *)

Ltac by_computation := apply (bool_decide_unpack _); by vm_compute.

Lemma visit_stmts_cons (stmts : list Stmt) (l k : nat) (rest : list nat)
    (v : Visit) (stmt : Stmt) :
  stmts !! k = Some stmt →
  visit_stmts stmts l (k :: rest) v =
  visit_stmts stmts l rest
    match last (refs stmt) with
    | Some real_ref => visit_ref l (Z.of_nat k) real_ref v
    | None => v
    end.
Proof. intros H. simpl. by rewrite H. Qed.

Lemma visit_ref_reg_write (l : nat) (sid i off : Z) (drd dtd : list Z) (v : Visit) :
  off ∈ heap_get (v_heap v) l →
  visit_ref l sid (SimRegWrite i off drd dtd) v =
  {| v_heap := <[l := heap_get (v_heap v) l ∖ {[off]} ∪ list_to_set drd]> (v_heap v);
     v_tmp := v_tmp v ∪ list_to_set dtd;
     v_map := <[off := sid]> (v_map v) |}.
Proof. intros H. unfold visit_ref. by rewrite bool_decide_eq_true_2. Qed.

Lemma heap_get_Some (h : Heap) (l : nat) (s : gset Z) :
  h !! l = Some s → heap_get h l = s.
Proof. unfold heap_get. by intros ->. Qed.

Lemma singleton_not_subseteq (a b : Z) : a ≠ b → ¬ ({[a]} : gset Z) ⊆ {[b]}.
Proof.
  intros Hab Hsub. apply Hab, (elem_of_singleton (C := gset Z)), Hsub.
  by apply elem_of_singleton.
Qed.

Lemma visit_cyc_A (h : Heap) (l : nat) :
  h !! l = Some ({[1; 2]} : gset Z) →
  visit_run cyc_A (-1) l {| v_heap := h; v_tmp := ∅; v_map := ∅ |} =
  Ok {| v_heap := <[l := {[2]}]> h; v_tmp := ∅; v_map := {[1 := 0]} |}.
Proof.
  intros Hl. unfold visit_run. cbn [body cyc_A].
  change (stmt_ids _ (-1)) with [1%nat; 0%nat].
  rewrite (visit_stmts_cons _ _ _ _ _ {| refs := [cyc_read] |}) by done.
  rewrite (visit_stmts_cons _ _ _ _ _ {| refs := [SimRegWrite 0 1 [2] []] |}) by done.
  cbn [refs last visit_stmts].
  change (visit_ref l (Z.of_nat 1) cyc_read ?v) with v.
  rewrite visit_ref_reg_write; cbn [v_heap v_tmp v_map]; rewrite (heap_get_Some _ _ _ Hl);
    [|by_computation].
  replace ({[1; 2]} ∖ {[1]} ∪ list_to_set [2]) with ({[2]} : gset Z) by by_computation.
  replace (∅ ∪ list_to_set []) with (∅ : gset Z) by by_computation.
  reflexivity.
Qed.

Lemma visit_cyc_B (h : Heap) (l : nat) :
  h !! l = Some ({[1; 2]} : gset Z) →
  visit_run cyc_B (-1) l {| v_heap := h; v_tmp := ∅; v_map := ∅ |} =
  Ok {| v_heap := <[l := {[1]}]> h; v_tmp := ∅; v_map := {[2 := 0]} |}.
Proof.
  intros Hl. unfold visit_run. cbn [body cyc_B].
  change (stmt_ids _ (-1)) with [0%nat].
  rewrite (visit_stmts_cons _ _ _ _ _ {| refs := [SimRegWrite 0 2 [1] []] |}) by done.
  cbn [refs last visit_stmts].
  rewrite visit_ref_reg_write; cbn [v_heap v_tmp v_map]; rewrite (heap_get_Some _ _ _ Hl);
    [|by_computation].
  replace ({[1; 2]} ∖ {[2]} ∪ list_to_set [1]) with ({[1]} : gset Z) by by_computation.
  replace (∅ ∪ list_to_set []) with (∅ : gset Z) by by_computation.
  reflexivity.
Qed.

Section Memo.
Variable get_predecessors : SimRun -> list SimRun.

(** What [push_predecessor] does for a predecessor that is already in
    [traced]: nothing, or a new entry whose set strictly contains the one
    memoized at that moment. *)
Lemma push_predecessor_traced (reg_deps : gset Z) (tr : gmap Z nat) (s : SimRun)
    (h : Heap) (stk : list TraceEntry) (lo : nat) :
  tr !! run_addr s = Some lo →
  push_predecessor reg_deps tr s (h, stk) = (h, stk) ∨
  (heap_get h lo ⊂ reg_deps ∪ heap_get h lo ∧
   push_predecessor reg_deps tr s (h, stk) =
     (h ++ [reg_deps ∪ heap_get h lo],
      {| te_run := s; te_stmt_id := -1; te_reg_deps := length h; te_tmp_deps := ∅ |} :: stk)).
Proof.
  intros Hlo. unfold push_predecessor. rewrite Hlo.
  destruct (bool_decide (reg_deps ⊆ heap_get h lo)) eqn:Hsub; [by left|].
  right. apply bool_decide_eq_false in Hsub. split; [|done].
  split; [apply union_subseteq_r|].
  intros Hall. apply Hsub. intros x Hx. apply Hall. by apply elem_of_union_l.
Qed.

(** One iteration for an entry whose run has the single predecessor [s],
    already in [traced], when the walk leaves dependencies that the set
    memoized for [s] does not cover. *)
Lemma trace_visit_requeue (e : TraceEntry) (st : TraceState) (v : Visit)
    (s : SimRun) (lo : nat) :
  visit_run (te_run e) (te_stmt_id e) (te_reg_deps e)
    {| v_heap := heap st; v_tmp := te_tmp_deps e; v_map := ∅ |} = Ok v →
  get_predecessors (te_run e) = [s] →
  traced st !! run_addr s = Some lo →
  ¬ heap_get (v_heap v) (te_reg_deps e) ⊆ heap_get (v_heap v) lo →
  ∃ srcs,
    trace_visit get_predecessors e st =
    Ok {| heap := v_heap v ++ [heap_get (v_heap v) (te_reg_deps e) ∪ heap_get (v_heap v) lo];
          stack := {| te_run := s; te_stmt_id := -1; te_reg_deps := length (v_heap v);
                      te_tmp_deps := ∅ |} :: stack st;
          traced := traced st;
          sources := srcs |}.
Proof.
  intros Hv Hpred Hlo Hsub. unfold trace_visit. rewrite Hv, Hpred.
  cbn [mbind Result_bind foldl].
  assert (heap_get (v_heap v) (te_reg_deps e) ≠ ∅) as Hne.
  { intros Hempty. apply Hsub. rewrite Hempty. apply empty_subseteq. }
  rewrite (bool_decide_eq_false_2 _ Hne).
  destruct (push_predecessor_traced (heap_get (v_heap v) (te_reg_deps e)) (traced st) s
              (v_heap v) (stack st) lo Hlo) as [Hsame|[_ ->]].
  - exfalso. unfold push_predecessor in Hsame. rewrite Hlo in Hsame.
    rewrite (bool_decide_eq_false_2 _ Hsub) in Hsame. simpl in Hsame.
    injection Hsame as Hh _.
    apply (f_equal length) in Hh. rewrite length_app in Hh. simpl in Hh. lia.
  - by eexists.
Qed.

End Memo.

Lemma cyc_step_A (st : TraceState) :
  cyc_pending cyc_A 0x200 {[1]} st →
  ∃ st', trace_step cyc_predecessors st = Ok st' ∧ cyc_pending cyc_B 0x100 {[2]} st'.
Proof.
  intros (l & lo & Hstk & Hl & Htr & Hlo & Hne).
  pose proof (lookup_lt_Some _ _ _ Hl) as Hlen.
  unfold trace_step. rewrite Hstk.
  destruct (trace_visit_requeue cyc_predecessors
              {| te_run := cyc_A; te_stmt_id := -1; te_reg_deps := l; te_tmp_deps := ∅ |}
              (trace_record
                 {| te_run := cyc_A; te_stmt_id := -1; te_reg_deps := l; te_tmp_deps := ∅ |}
                 [] st)
              {| v_heap := <[l := {[2]}]> (heap st); v_tmp := ∅; v_map := {[1 := 0]} |}
              cyc_B lo) as [srcs ->].
  - by apply visit_cyc_A.
  - reflexivity.
  - cbn [trace_record traced te_run run_addr cyc_A cyc_B].
    by rewrite lookup_insert_ne.
  - cbn [v_heap te_reg_deps]. unfold heap_get.
    rewrite list_lookup_insert_eq by done.
    rewrite list_lookup_insert_ne by done. rewrite Hlo. simpl.
    by apply singleton_not_subseteq.
  - eexists. split; [done|].
    exists (length (<[l := ({[2]} : gset Z)]> (heap st))), l.
    cbn [heap stack traced v_heap te_reg_deps trace_record te_run run_addr cyc_A].
    rewrite length_insert. split; [done|]. split.
    { rewrite list_lookup_middle by by rewrite length_insert.
      unfold heap_get. rewrite list_lookup_insert_eq by done.
      rewrite list_lookup_insert_ne by done. rewrite Hlo. simpl.
      by_computation. }
    split; [by rewrite lookup_insert_eq|]. split; [|lia].
    rewrite lookup_app_l by by rewrite length_insert.
    by rewrite list_lookup_insert_eq.
Qed.

Lemma cyc_step_B (st : TraceState) :
  cyc_pending cyc_B 0x100 {[2]} st →
  ∃ st', trace_step cyc_predecessors st = Ok st' ∧ cyc_pending cyc_A 0x200 {[1]} st'.
Proof.
  intros (l & lo & Hstk & Hl & Htr & Hlo & Hne).
  pose proof (lookup_lt_Some _ _ _ Hl) as Hlen.
  unfold trace_step. rewrite Hstk.
  destruct (trace_visit_requeue cyc_predecessors
              {| te_run := cyc_B; te_stmt_id := -1; te_reg_deps := l; te_tmp_deps := ∅ |}
              (trace_record
                 {| te_run := cyc_B; te_stmt_id := -1; te_reg_deps := l; te_tmp_deps := ∅ |}
                 [] st)
              {| v_heap := <[l := {[1]}]> (heap st); v_tmp := ∅; v_map := {[2 := 0]} |}
              cyc_A lo) as [srcs ->].
  - by apply visit_cyc_B.
  - reflexivity.
  - cbn [trace_record traced te_run run_addr cyc_A cyc_B].
    by rewrite lookup_insert_ne.
  - cbn [v_heap te_reg_deps]. unfold heap_get.
    rewrite list_lookup_insert_eq by done.
    rewrite list_lookup_insert_ne by done. rewrite Hlo. simpl.
    by apply singleton_not_subseteq.
  - eexists. split; [done|].
    exists (length (<[l := ({[1]} : gset Z)]> (heap st))), l.
    cbn [heap stack traced v_heap te_reg_deps trace_record te_run run_addr cyc_B].
    rewrite length_insert. split; [done|]. split.
    { rewrite list_lookup_middle by by rewrite length_insert.
      unfold heap_get. rewrite list_lookup_insert_eq by done.
      rewrite list_lookup_insert_ne by done. rewrite Hlo. simpl.
      by_computation. }
    split; [by rewrite lookup_insert_eq|]. split; [|lia].
    rewrite lookup_app_l by by rewrite length_insert.
    by rewrite list_lookup_insert_eq.
Qed.

Lemma cyc_inv_diverges (fuel : nat) (st : TraceState) :
  cyc_inv st → trace_loop cyc_predecessors fuel st = None.
Proof.
  revert st. induction fuel as [|fuel IH]; intros st Hinv.
  - simpl. by destruct Hinv as [(l & lo & -> & _)|(l & lo & -> & _)].
  - assert (∃ st', trace_step cyc_predecessors st = Ok st' ∧ cyc_inv st') as (st' & Hstep & Hinv').
    { destruct Hinv as [HA|HB].
      - destruct (cyc_step_A st HA) as (st' & ? & ?). exists st'. split; [done|by right].
      - destruct (cyc_step_B st HB) as (st' & ? & ?). exists st'. split; [done|by left]. }
    simpl. rewrite Hstep.
    destruct Hinv as [(l & lo & -> & _)|(l & lo & -> & _)]; by apply IH.
Qed.

Lemma cyc_state2_inv : cyc_inv cyc_state2.
Proof. left. exists 2%nat, 1%nat. repeat split; done. Qed.

Lemma cyc_states_reached :
  trace_init cyc_A cyc_read = Ok cyc_state0 ∧
  trace_step cyc_predecessors cyc_state0 = Ok cyc_state1 ∧
  trace_step cyc_predecessors cyc_state1 = Ok cyc_state2.
Proof. repeat split; vm_compute; reflexivity. Qed.

(** C3, evaluated on the two-block cycle [cyc_A] / [cyc_B].  The trace of
    [(cyc_A, cyc_read)] never returns: no amount of fuel empties the
    stack.  And the memo shrinks: in the third iteration line 54 stores
    the popped set [{1, 2}] for address 0x100, and the walk over the run,
    which mutates that very object, leaves [{2}] there. *)
Theorem trace_source_cycle :
  (∀ fuel, trace_source cyc_predecessors fuel cyc_A cyc_read = None) ∧
  ∃ e rest st',
    trace_init cyc_A cyc_read = Ok cyc_state0 ∧
    trace_step cyc_predecessors cyc_state0 = Ok cyc_state1 ∧
    trace_step cyc_predecessors cyc_state1 = Ok cyc_state2 ∧
    stack cyc_state2 = e :: rest ∧
    traced_set (trace_record e rest cyc_state2) 0x100 = Some {[1; 2]} ∧
    trace_visit cyc_predecessors e (trace_record e rest cyc_state2) = Ok st' ∧
    traced_set st' 0x100 = Some {[2]} ∧
    ({[2]} : gset Z) ⊂ {[1; 2]}.
Proof.
  destruct cyc_states_reached as (H0 & H1 & H2). split.
  - intros fuel. unfold trace_source. rewrite H0.
    destruct fuel as [|[|fuel]]; [done|by simpl; rewrite H1|].
    change (trace_loop cyc_predecessors (S (S fuel)) cyc_state0)
      with (match trace_step cyc_predecessors cyc_state0 with
            | Ok st' => trace_loop cyc_predecessors (S fuel) st'
            | Err e => Some (Err e)
            end).
    rewrite H1.
    change (trace_loop cyc_predecessors (S fuel) cyc_state1)
      with (match trace_step cyc_predecessors cyc_state1 with
            | Ok st' => trace_loop cyc_predecessors fuel st'
            | Err e => Some (Err e)
            end).
    rewrite H2. apply cyc_inv_diverges, cyc_state2_inv.
  - exists {| te_run := cyc_A; te_stmt_id := -1; te_reg_deps := 2; te_tmp_deps := ∅ |},
      [], cyc_state3.
    do 3 (split; [done|]). split; [reflexivity|].
    split; [by_computation|]. split; [vm_compute; reflexivity|].
    split; [by_computation|].
    split; [apply union_subseteq_r|].
    intros Hsub. assert (1 ∈ ({[2]} : gset Z)) as Hin.
    { apply Hsub, elem_of_union_l. by apply elem_of_singleton. }
    by apply elem_of_singleton in Hin.
Qed.

(** ** The forward walk on concrete graphs *)

Lemma trace_source_summary (get_predecessors : SimRun -> list SimRun) (fuel : nat)
    (p : SimRun) (ref : SimRef) (rs : list SimRef) :
  body p = SimProcedure rs →
  trace_source get_predecessors fuel p ref = Some (Err AttributeError).
Proof.
  intros Hbody. unfold trace_source, trace_init, seed_ref, run_statements.
  by rewrite Hbody.
Qed.

(** C10.  There is an input on which [construct] fails in the
    reconciliation pass: the forward walk over [sym_entry] and its
    successor, the summary run [sym_proc], ends normally with
    [(sym_proc, sym_proc_read)] in the symbolic-operation set, and the
    trace of that pair raises [AttributeError] when it reads
    [statements] off the summary run. *)
Theorem construct_fails_on_summary_op :
  ∃ get_predecessors get_successors reanalyze initial_irsb fuel st p ref rs,
    walk_loop get_successors reanalyze initial_irsb fuel (walk_init initial_irsb)
      = Some (Ok st) ∧
    symbolic_mem_ops st = [(p, ref)] ∧
    body p = SimProcedure rs ∧
    is_mem_read ref = true ∧
    (∀ fuel', trace_source get_predecessors fuel' p ref = Some (Err AttributeError)) ∧
    construct get_predecessors get_successors reanalyze initial_irsb fuel
      = Some (Err AttributeError).
Proof.
  exists no_predecessors, sym_successors, same_run, sym_entry, 2%nat.
  exists {| run_stack := []; scanned_runs := {[ 0%nat := 1%nat; 1%nat := 1%nat ]};
            ddg := ∅; symbolic_mem_ops := [(sym_proc, sym_proc_read)]; var_i := None |}.
  exists sym_proc, sym_proc_read, [sym_proc_read].
  split; [vm_compute; reflexivity|]. do 3 (split; [reflexivity|]).
  split; [|vm_compute; reflexivity].
  intros fuel'. by eapply trace_source_summary.
Qed.

(** C2, evaluated on [wr_entry] -> [wr_proc] -> [wr_reader].  The summary
    run [wr_proc] (address 0x200) writes 0x5000 after a block of three
    statements has been walked, so the local [i] holds 2: the wrapper
    queued for [wr_reader] carries [addr_to_ref[0x5000] = (0x200, 2)], and
    the edge that [construct] returns for the read at (0x300, 0) is
    [(0x200, 2)], not [(0x200, -1)]. *)
Theorem summary_write_statement_index :
  (∃ st w fr,
     walk_loop wr_successors same_run wr_entry 2 (walk_init wr_entry) = None ∧
     (walk_step wr_successors same_run wr_entry (walk_init wr_entry)
        ≫= walk_step wr_successors same_run wr_entry) = Ok st ∧
     run_stack st = [w] ∧ run w = wr_reader ∧ call_stack w = [fr] ∧
     addr_to_ref fr !! 0x5000 = Some (0x200, 2)) ∧
  construct no_predecessors wr_successors same_run wr_entry 3
    = Some (Ok {[ 0x300 := {[ 0 := {[ (0x200, 2) ]} ]} ]}).
Proof.
  split; [|vm_compute; reflexivity].
  exists {| run_stack :=
              [ {| run := wr_reader; new_state := Some st0;
                   call_stack := [ {| initial_sp := Some 0x80000000;
                                      addr_to_ref := {[ 0x5000 := (0x200, 2) ]} |} ];
                   reanalyze_successors := true |} ];
            scanned_runs := {[ 0%nat := 1%nat; 1%nat := 1%nat ]};
            ddg := ∅; symbolic_mem_ops := []; var_i := Some 2 |}.
  eexists _, _. split; [vm_compute; reflexivity|].
  split; [vm_compute; reflexivity|].
  do 3 (split; [reflexivity|]). by_computation.
Qed.

(** C4, evaluated on [miss_entry] -> [miss_next].  No exit of the entry
    block goes to 0x200, so the successor's state is [None].  When the
    block's first exit is a call, building the successor's call stack
    then raises [AttributeError] ([new_state.sp_value()] on [None]) and
    [construct] aborts; with any other jumpkind the successor is queued
    with state [None] and [construct] returns. *)
Theorem missing_exit_on_call :
  successor_state (exits (miss_entry Ijk_Call)) (run_addr miss_next) = None ∧
  (∀ fuel, construct no_predecessors miss_successors same_run (miss_entry Ijk_Call) (S fuel)
           = Some (Err AttributeError)) ∧
  construct no_predecessors miss_successors same_run (miss_entry Ijk_Boring) 2 = Some (Ok ∅) ∧
  construct no_predecessors miss_successors same_run (miss_entry Ijk_Ret) 2 = Some (Ok ∅).
Proof.
  split; [reflexivity|]. split; [|split; vm_compute; reflexivity].
  intros fuel. unfold construct.
  assert (walk_step miss_successors same_run (miss_entry Ijk_Call)
            (walk_init (miss_entry Ijk_Call)) = Err AttributeError) as Hstep
    by (vm_compute; reflexivity).
  change (walk_loop miss_successors same_run (miss_entry Ijk_Call) (S fuel)
            (walk_init (miss_entry Ijk_Call)))
    with (match walk_step miss_successors same_run (miss_entry Ijk_Call)
                  (walk_init (miss_entry Ijk_Call)) with
          | Ok st' => walk_loop miss_successors same_run (miss_entry Ijk_Call) fuel st'
          | Err e => Some (Err e)
          end).
  by rewrite Hstep.
Qed.

(** The successor's call stack in general: without a matching exit, a
    call as first exit raises, every other jumpkind goes on. *)
Lemma successor_call_stack_no_state (new_run : SimRun) (ex0 : SimExit)
    (rest : list SimExit) (cs : CallStack) :
  exits new_run = ex0 :: rest →
  match jumpkind ex0 with
  | Ijk_Call => successor_call_stack new_run None cs = Err AttributeError
  | Ijk_Ret => successor_call_stack new_run None cs
               = Ok (if (1 <? length cs)%nat then removelast cs else cs)
  | Ijk_Boring => successor_call_stack new_run None cs = Ok cs
  end.
Proof.
  intros Hex. unfold successor_call_stack. rewrite Hex.
  change (py_index (ex0 :: rest) 0) with (Ok ex0). cbn [mbind Result_bind of_option].
  destruct (jumpkind ex0); try done.
  by destruct (1 <? length cs)%nat.
Qed.

(** ** Concrete reads in the forward walk *)

Lemma ddg_get_add (a i a' i' : Z) (w : source) (g : gmap Z (gmap Z (gset source))) :
  ddg_get (ddg_add a i w g) a' i' =
  if decide ((a', i') = (a, i)) then ddg_get g a i ∪ {[w]} else ddg_get g a' i'.
Proof.
  unfold ddg_get at 1, ddg_add.
  destruct (decide (a' = a)) as [->|Ha].
  - rewrite lookup_insert_eq. simpl.
    destruct (decide (i' = i)) as [->|Hi].
    + rewrite lookup_insert_eq. simpl. by rewrite decide_True.
    + rewrite lookup_insert_ne by done. rewrite decide_False by congruence. done.
  - rewrite lookup_insert_ne by done. rewrite decide_False by congruence. done.
Qed.

Lemma fmap_rev {A B} (f : A → B) (l : list A) : f <$> rev l = rev (f <$> l).
Proof.
  induction l as [|x l IH]; [done|]. simpl. by rewrite fmap_app, IH.
Qed.

Section Reads.
Variables lbound ubound : Z.

Lemma scan_frames_sps (frs frs' : list (nat * StackFrame)) (addr : Z) :
  prod_map id initial_sp <$> frs = prod_map id initial_sp <$> frs' →
  scan_frames frs addr = scan_frames frs' addr.
Proof.
  revert frs'. induction frs as [|[i fr] frs IH]; intros [|[i' fr'] frs'] H; try done.
  simpl in H. injection H as -> Hsp Hrest. simpl. rewrite Hsp.
  destruct (initial_sp fr'); [|done]. destruct (addr <? z); [done|]. by apply IH.
Qed.

Lemma find_frame_by_addr_sps (cs cs' : CallStack) (addr : Z) :
  initial_sp <$> cs = initial_sp <$> cs' →
  find_frame_by_addr lbound ubound cs addr = find_frame_by_addr lbound ubound cs' addr.
Proof.
  intros H. unfold find_frame_by_addr.
  assert (length cs = length cs') as ->.
  { apply (f_equal length) in H. by rewrite !length_fmap in H. }
  rewrite (scan_frames_sps (rev (imap pair cs)) (rev (imap pair cs'))); [done|].
  rewrite !fmap_rev. f_equal.
  rewrite !fmap_imap.
  transitivity (imap pair (initial_sp <$> cs)); [by rewrite imap_fmap|].
  rewrite H. by rewrite imap_fmap.
Qed.

Lemma record_write_frames (a : Z) (tpl : source) (s s1 : Scan) :
  record_write lbound ubound a tpl s = Ok s1 →
  initial_sp <$> sc_stack s1 = initial_sp <$> sc_stack s ∧
  sc_ddg s1 = sc_ddg s ∧ sc_sym s1 = sc_sym s.
Proof.
  unfold record_write.
  destruct (find_frame_by_addr lbound ubound (sc_stack s) a) as [k|]; [|done]. simpl.
  destruct (sc_stack s !! k) as [fr|] eqn:Hk; [|done]. simpl.
  case_bool_decide; intros [= <-]; [done|]. simpl. split; [|done].
  rewrite list_fmap_insert. simpl. apply list_insert_id.
  by rewrite list_lookup_fmap, Hk.
Qed.

(** A recorded write is what a later lookup of the same address in the
    same call stack finds. *)
Lemma record_write_lookup (a : Z) (tpl : source) (s : Scan) :
  sc_stack s ≠ [] →
  ∃ s1, record_write lbound ubound a tpl s = Ok s1 ∧
        lookup_write lbound ubound a s1 = Ok (Some tpl).
Proof.
  intros Hne.
  destruct (find_frame_by_addr_ok lbound ubound (sc_stack s) a Hne)
    as (k & fr & Hfind & Hk).
  unfold record_write. rewrite Hfind. simpl. rewrite Hk. simpl.
  case_bool_decide as Hold.
  - exists s. split; [done|]. unfold lookup_write. rewrite Hfind. simpl.
    rewrite Hk. simpl. by rewrite Hold.
  - eexists. split; [done|]. unfold lookup_write. simpl.
    rewrite (find_frame_by_addr_sps _ (sc_stack s)).
    + rewrite Hfind. simpl.
      rewrite list_lookup_insert_eq by by eapply lookup_lt_Some. simpl.
      by rewrite lookup_insert_eq.
    + rewrite list_fmap_insert. simpl. apply list_insert_id.
      by rewrite list_lookup_fmap, Hk.
Qed.

Lemma scan_mem_reads_app_pass (old_irsb : SimRun) (a i : Z)
    (pre rest : list SimRef) (s : Scan) :
  (∀ x, x ∈ pre → read_passes lbound ubound s x) →
  scan_mem_reads lbound ubound old_irsb a i (pre ++ rest) s =
  scan_mem_reads lbound ubound old_irsb a i rest (foldl (note_symbolic old_irsb) s pre).
Proof.
  revert s. induction pre as [|x pre IH]; intros s Hpass; [done|].
  assert (∀ s', sc_stack s' = sc_stack s →
                ∀ y, y ∈ pre → read_passes lbound ubound s' y) as Hrest.
  { intros s' Hs' y Hy. specialize (Hpass y (list_elem_of_further _ _ _ Hy)).
    destruct y; try done. unfold read_passes, lookup_write in *. by rewrite Hs'. }
  specialize (Hpass x (list_elem_of_here _ _)).
  destruct x; simpl; try (apply IH, Hrest; done).
  simpl in Hpass. destruct (is_symbolic addr) eqn:Hsym; simpl.
  - apply IH, Hrest. done.
  - destruct Hpass as [|Hnone]; [done|]. rewrite Hnone. simpl. apply IH, Hrest. done.
Qed.

Lemma foldl_note_symbolic (old_irsb : SimRun) (pre : list SimRef) (s : Scan) :
  sc_stack (foldl (note_symbolic old_irsb) s pre) = sc_stack s ∧
  sc_flag (foldl (note_symbolic old_irsb) s pre) = sc_flag s ∧
  sc_ddg (foldl (note_symbolic old_irsb) s pre) = sc_ddg s.
Proof.
  revert s. induction pre as [|x pre IH]; intros s; [done|]. simpl.
  destruct (IH (note_symbolic old_irsb s x)) as (-> & -> & ->).
  destruct x; try done. simpl. by destruct (is_symbolic addr).
Qed.

Lemma scan_mem_reads_first_hit (old_irsb : SimRun) (a i : Z)
    (pre post : list SimRef) (r : SimRef) (w : source) (s : Scan) :
  (∀ x, x ∈ pre → read_passes lbound ubound s x) →
  read_resolves lbound ubound s r w →
  scan_mem_reads lbound ubound old_irsb a i (pre ++ r :: post) s =
  Ok (add_edge a i w (foldl (note_symbolic old_irsb) s pre)).
Proof.
  intros Hpass Hres. rewrite scan_mem_reads_app_pass by done.
  destruct r; try done. destruct Hres as [Hsym Hhit]. simpl. rewrite Hsym. simpl.
  unfold lookup_write in *.
  destruct (foldl_note_symbolic old_irsb pre s) as (-> & _). by rewrite Hhit.
Qed.

Lemma scan_mem_reads_no_read (old_irsb : SimRun) (a i : Z) (rs : list SimRef) (s : Scan) :
  (∀ x, x ∈ rs → is_mem_read x = false) →
  scan_mem_reads lbound ubound old_irsb a i rs s = Ok s.
Proof.
  induction rs as [|x rs IH]; intros Hno; [done|].
  assert (is_mem_read x = false) as Hx by apply Hno, list_elem_of_here.
  destruct x; try done; simpl; apply IH; intros y Hy; by apply Hno, list_elem_of_further.
Qed.

Lemma foldl_note_symbolic_no_read (old_irsb : SimRun) (pre : list SimRef) (s : Scan) :
  (∀ x, x ∈ pre → is_mem_read x = false) →
  foldl (note_symbolic old_irsb) s pre = s.
Proof.
  revert s. induction pre as [|x pre IH]; intros s Hno; [done|]. simpl.
  assert (is_mem_read x = false) as Hx by apply Hno, list_elem_of_here.
  destruct x; try done; simpl; apply IH; intros y Hy; by apply Hno, list_elem_of_further.
Qed.

(** C8.  (1) In the read loop of statement [i], when the references
    before [r] are all passed over and [r] is a [SimMemRead] at a concrete
    address whose frame lookup finds the writer [w], the loop ends at [r]:
    the result does not depend on the references after [r], the DDG gains
    [w] at [(irsb_addr, i)] and is unchanged everywhere else.
    (2) A statement whose last reference writes the concrete address [x],
    followed in the same call stack by a statement whose first
    [SimMemRead] reads [x], adds exactly the edge
    [(irsb_addr, j) <- (irsb_addr, i)]. *)
Theorem first_resolved_read :
  (∀ (old_irsb : SimRun) (a i : Z) (pre post : list SimRef) (r : SimRef)
     (w : source) (s : Scan),
     (∀ x, x ∈ pre → read_passes lbound ubound s x) →
     read_resolves lbound ubound s r w →
     ∃ s',
       scan_mem_reads lbound ubound old_irsb a i (pre ++ r :: post) s = Ok s' ∧
       scan_mem_reads lbound ubound old_irsb a i (pre ++ [r]) s = Ok s' ∧
       sc_ddg s' = ddg_add a i w (sc_ddg s) ∧
       ddg_get (sc_ddg s') a i = ddg_get (sc_ddg s) a i ∪ {[w]} ∧
       (∀ a' i', (a', i') ≠ (a, i) →
                 ddg_get (sc_ddg s') a' i' = ddg_get (sc_ddg s) a' i') ∧
       sc_stack s' = sc_stack s ∧
       sc_sym s' = sc_sym (foldl (note_symbolic old_irsb) s pre)) ∧
  (∀ (old_irsb : SimRun) (a i j x : Z) (refs_w pre post : list SimRef)
     (wr rd last_r : SimRef) (s : Scan),
     sc_stack s ≠ [] →
     last refs_w = Some wr → writes_concrete x wr →
     (∀ y, y ∈ refs_w → is_mem_read y = false) →
     last (pre ++ rd :: post) = Some last_r → is_mem_write last_r = false →
     (∀ y, y ∈ pre → is_mem_read y = false) →
     reads_concrete x rd →
     ∃ s1 s2,
       process_stmt lbound ubound old_irsb a i {| refs := refs_w |} s = Ok s1 ∧
       process_stmt lbound ubound old_irsb a j {| refs := pre ++ rd :: post |} s1 = Ok s2 ∧
       sc_ddg s2 = ddg_add a j (a, i) (sc_ddg s) ∧
       sc_sym s2 = sc_sym s).
Proof.
  split.
  - intros old_irsb a i pre post r w s Hpass Hres.
    exists (add_edge a i w (foldl (note_symbolic old_irsb) s pre)).
    rewrite !(scan_mem_reads_first_hit _ _ _ _ _ _ w) by done.
    destruct (foldl_note_symbolic old_irsb pre s) as (Hstk & _ & Hddg).
    do 2 (split; [done|]). simpl. rewrite Hddg. split; [done|].
    split; [by rewrite ddg_get_add, decide_True|].
    split; [|done]. intros a' i' Hne. by rewrite ddg_get_add, decide_False.
  - intros old_irsb a i j x refs_w pre post wr rd last_r s Hne Hlw Hwr Hnoread
      Hlr Hnotw Hpre Hrd.
    destruct wr; try done. destruct Hwr as [Hsym <-].
    destruct (record_write_lookup (any addr) (a, i) s Hne) as (s1 & Hrec & Hlook).
    destruct (record_write_frames _ _ _ _ Hrec) as (_ & Hddg & Hsymops).
    exists s1, (add_edge a j (a, i) s1). split.
    { unfold process_stmt. simpl. rewrite Hlw, Hsym. simpl. rewrite Hrec. simpl.
      by apply scan_mem_reads_no_read. }
    split.
    { unfold process_stmt. simpl. rewrite Hlr.
      assert ((match last_r with
               | SimMemWrite _ addr0 _ _ _ _ =>
                   if negb (is_symbolic addr0)
                   then record_write lbound ubound (any addr0) (a, j) s1
                   else Ok (add_sym (old_irsb, last_r) s1)
               | _ => Ok s1
               end) = Ok s1) as -> by by destruct last_r.
      simpl. rewrite (scan_mem_reads_first_hit _ _ _ _ _ _ (a, i)).
      - by rewrite foldl_note_symbolic_no_read.
      - intros y Hy. specialize (Hpre y Hy). by destruct y.
      - destruct rd; try done. destruct Hrd as [Hs Ha]. simpl. by rewrite Ha. }
    simpl. by rewrite Hddg.
Qed.

End Reads.


(** ** The reconciliation pass *)

Lemma foldl_preserve {A B} (f : B → A → B) (P : B → Prop) (l : list A) (b : B) :
  (∀ b y, P b → P (f b y)) → P b → P (foldl f b l).
Proof.
  intros Hf. revert b. induction l as [|y l IH]; intros b Hb; [done|].
  simpl. by apply IH, Hf.
Qed.

Lemma foldl_establish {A B} (f : B → A → B) (P : B → Prop) (l : list A) (x : A) (b : B) :
  (∀ b y, P b → P (f b y)) → (∀ b, P (f b x)) → x ∈ l → P (foldl f b l).
Proof.
  intros Hf Hx. revert b. induction l as [|y l IH]; intros b Hin.
  - by apply elem_of_nil in Hin.
  - simpl. apply elem_of_cons in Hin as [<-|Hin].
    + by apply foldl_preserve.
    + by apply IH.
Qed.

Lemma ddg_add_mono (a i a' i' : Z) (w w' : source) (g : gmap Z (gmap Z (gset source))) :
  w' ∈ ddg_get g a' i' → w' ∈ ddg_get (ddg_add a i w g) a' i'.
Proof.
  intros H. rewrite ddg_get_add. case_decide as Heq; [|done].
  injection Heq as -> ->. by apply elem_of_union_l.
Qed.

Lemma ddg_add_in (a i : Z) (w : source) (g : gmap Z (gmap Z (gset source))) :
  w ∈ ddg_get (ddg_add a i w g) a i.
Proof.
  rewrite ddg_get_add, decide_True by done. by apply elem_of_union_r, elem_of_singleton.
Qed.

Lemma link_pairs_mono (lst_reads lst_writes : list (Z * SimRef))
    (g : gmap Z (gmap Z (gset source))) (a i : Z) (w : source) :
  w ∈ ddg_get g a i → w ∈ ddg_get (link_pairs lst_reads lst_writes g) a i.
Proof.
  unfold link_pairs.
  apply (foldl_preserve _ (fun g => w ∈ ddg_get g a i)).
  intros g1 rd. apply (foldl_preserve _ (fun g => w ∈ ddg_get g a i)).
  intros g2 wr. apply ddg_add_mono.
Qed.

Lemma link_pairs_in (lst_reads lst_writes : list (Z * SimRef))
    (g : gmap Z (gmap Z (gset source))) (rd wr : Z * SimRef) :
  rd ∈ lst_reads → wr ∈ lst_writes →
  (wr.1, ref_stmt_idx wr.2)
    ∈ ddg_get (link_pairs lst_reads lst_writes g) rd.1 (ref_stmt_idx rd.2).
Proof.
  intros Hrd Hwr. unfold link_pairs.
  apply (foldl_establish _
           (fun g => (wr.1, ref_stmt_idx wr.2) ∈ ddg_get g rd.1 (ref_stmt_idx rd.2))
           _ rd); [| |done].
  - intros g1 rd'. apply (foldl_preserve _
           (fun g => (wr.1, ref_stmt_idx wr.2) ∈ ddg_get g rd.1 (ref_stmt_idx rd.2))).
    intros g2 wr'. apply ddg_add_mono.
  - intros g1. apply (foldl_establish _
           (fun g => (wr.1, ref_stmt_idx wr.2) ∈ ddg_get g rd.1 (ref_stmt_idx rd.2))
           _ wr); [| |done].
    + intros g2 wr'. apply ddg_add_mono.
    + intros g2. apply ddg_add_in.
Qed.

Lemma link_producers_in (reads writes : gmap source (list (Z * SimRef)))
    (g : gmap Z (gmap Z (gset source))) (src : source) (rd wr : Z * SimRef) :
  produced_by reads src rd → produced_by writes src wr →
  (wr.1, ref_stmt_idx wr.2)
    ∈ ddg_get (link_producers reads writes g) rd.1 (ref_stmt_idx rd.2).
Proof.
  intros (lr & Hlr & Hrd) (lw & Hlw & Hwr). unfold link_producers.
  apply (foldl_establish _
           (fun g => (wr.1, ref_stmt_idx wr.2) ∈ ddg_get g rd.1 (ref_stmt_idx rd.2))
           _ (src, lw)).
  - intros g1 [src' lw']. simpl. destruct (reads !! src'); [|done].
    apply link_pairs_mono.
  - intros g1. simpl. rewrite Hlr. by apply link_pairs_in.
  - by apply elem_of_map_to_list.
Qed.

Lemma add_producer_mono (d : gmap source (list (Z * SimRef))) (src src' : source)
    (x x' : Z * SimRef) :
  produced_by d src x → produced_by (add_producer src' x' d) src x.
Proof.
  intros (l & Hl & Hx). unfold produced_by, add_producer.
  destruct (decide (src' = src)) as [->|Hne].
  - rewrite lookup_insert_eq, Hl. eexists. split; [done|]. simpl.
    by apply elem_of_app; left.
  - rewrite lookup_insert_ne by done. by exists l.
Qed.

Lemma add_producer_in (d : gmap source (list (Z * SimRef))) (src : source) (x : Z * SimRef) :
  produced_by (add_producer src x d) src x.
Proof.
  unfold produced_by, add_producer. rewrite lookup_insert_eq. eexists. split; [done|].
  apply elem_of_app; right. by apply list_elem_of_singleton.
Qed.

Lemma file_source_mono (irsb : SimRun) (ref : SimRef)
    (acc : gmap source (list (Z * SimRef)) * gmap source (list (Z * SimRef)))
    (src src' : source) (x : Z * SimRef) :
  (produced_by acc.1 src x → produced_by (file_source irsb ref acc src').1 src x) ∧
  (produced_by acc.2 src x → produced_by (file_source irsb ref acc src').2 src x).
Proof.
  destruct ref; simpl; split; try done; apply add_producer_mono.
Qed.

Lemma file_sources_in (irsb : SimRun) (ref : SimRef) (srcs : list source)
    (acc : gmap source (list (Z * SimRef)) * gmap source (list (Z * SimRef)))
    (src : source) :
  src ∈ srcs →
  (is_mem_read ref = true →
   produced_by (foldl (file_source irsb ref) acc srcs).1 src (run_addr irsb, ref)) ∧
  (is_mem_write ref = true →
   produced_by (foldl (file_source irsb ref) acc srcs).2 src (run_addr irsb, ref)).
Proof.
  intros Hin. split; intros Hkind.
  - apply (foldl_establish _ (fun acc => produced_by acc.1 src (run_addr irsb, ref)) _ src);
      [| |done].
    + intros acc' src'. apply file_source_mono.
    + intros acc'. destruct ref; try done. simpl. apply add_producer_in.
  - apply (foldl_establish _ (fun acc => produced_by acc.2 src (run_addr irsb, ref)) _ src);
      [| |done].
    + intros acc' src'. apply file_source_mono.
    + intros acc'. destruct ref; try done. simpl. apply add_producer_in.
Qed.

Section Solve.
Variable get_predecessors : SimRun -> list SimRun.

Lemma collect_producers_mono (fuel : nat) (ops : list (SimRun * SimRef))
    (acc res : gmap source (list (Z * SimRef)) * gmap source (list (Z * SimRef)))
    (src : source) (x : Z * SimRef) :
  collect_producers get_predecessors fuel ops acc = Some (Ok res) →
  (produced_by acc.1 src x → produced_by res.1 src x) ∧
  (produced_by acc.2 src x → produced_by res.2 src x).
Proof.
  revert acc. induction ops as [|[irsb ref] ops IH]; intros acc; simpl.
  - by intros [= <-].
  - destruct (trace_source get_predecessors fuel irsb ref) as [[srcs|]|]; [|done|done].
    intros H. destruct (IH _ H) as [IH1 IH2]. split; intros Hx.
    + apply IH1. revert Hx.
      apply (foldl_preserve _ (fun acc' => produced_by acc.1 src x → produced_by acc'.1 src x));
        [|done].
      intros acc' src' Hacc Hx. by apply file_source_mono, Hacc.
    + apply IH2. revert Hx.
      apply (foldl_preserve _ (fun acc' => produced_by acc.2 src x → produced_by acc'.2 src x));
        [|done].
      intros acc' src' Hacc Hx. by apply file_source_mono, Hacc.
Qed.

Lemma collect_producers_in (fuel : nat) (ops : list (SimRun * SimRef))
    (acc res : gmap source (list (Z * SimRef)) * gmap source (list (Z * SimRef)))
    (irsb : SimRun) (ref : SimRef) (srcs : gset source) (src : source) :
  collect_producers get_predecessors fuel ops acc = Some (Ok res) →
  (irsb, ref) ∈ ops →
  trace_source get_predecessors fuel irsb ref = Some (Ok srcs) →
  src ∈ srcs →
  (is_mem_read ref = true → produced_by res.1 src (run_addr irsb, ref)) ∧
  (is_mem_write ref = true → produced_by res.2 src (run_addr irsb, ref)).
Proof.
  intros Hres Hin Htrace Hsrc. revert acc Hres.
  induction ops as [|[irsb' ref'] ops IH]; intros acc Hres.
  - by apply elem_of_nil in Hin.
  - simpl in Hres. apply elem_of_cons in Hin as [[= <- <-]|Hin].
    + rewrite Htrace in Hres.
      destruct (collect_producers_mono _ _ _ _ src (run_addr irsb, ref) Hres) as [M1 M2].
      destruct (file_sources_in irsb ref (elements srcs) acc src) as [F1 F2];
        [by apply elem_of_elements|].
      split; intros Hkind; [apply M1, F1|apply M2, F2]; done.
    + destruct (trace_source get_predecessors fuel irsb' ref') as [[srcs'|]|];
        [|done|done].
      by eapply IH.
Qed.

(** C9.  When the reconciliation pass returns, every symbolic
    [SimMemRead] and every symbolic [SimMemWrite] whose traces share a
    source are linked: the DDG has the edge
    [(write_run.addr, write_ref.stmt_idx)] at
    [[read_run.addr][read_ref.stmt_idx]]. *)
Theorem shared_source_edge (fuel : nat) (ops : list (SimRun * SimRef))
    (g g' : gmap Z (gmap Z (gset source)))
    (read_run write_run : SimRun) (read_ref write_ref : SimRef)
    (read_srcs write_srcs : gset source) (src : source) :
  solve_symbolic_mem_operations get_predecessors fuel ops g = Some (Ok g') →
  (read_run, read_ref) ∈ ops → is_mem_read read_ref = true →
  (write_run, write_ref) ∈ ops → is_mem_write write_ref = true →
  trace_source get_predecessors fuel read_run read_ref = Some (Ok read_srcs) →
  trace_source get_predecessors fuel write_run write_ref = Some (Ok write_srcs) →
  src ∈ read_srcs → src ∈ write_srcs →
  (run_addr write_run, ref_stmt_idx write_ref)
    ∈ ddg_get g' (run_addr read_run) (ref_stmt_idx read_ref).
Proof.
  unfold solve_symbolic_mem_operations.
  intros Hsolve Hr Hrk Hw Hwk Htr Htw Hsr Hsw.
  destruct (collect_producers get_predecessors fuel ops (∅, ∅))
    as [[[reads writes]|]|] eqn:Hcol; [|done|done].
  injection Hsolve as <-.
  destruct (collect_producers_in _ _ _ _ _ _ _ _ Hcol Hr Htr Hsr) as [Hread _].
  destruct (collect_producers_in _ _ _ _ _ _ _ _ Hcol Hw Htw Hsw) as [_ Hwrite].
  apply (link_producers_in reads writes g src
           (run_addr read_run, read_ref) (run_addr write_run, write_ref)).
  - by apply Hread.
  - by apply Hwrite.
Qed.

End Solve.


(** ** The scan counter *)

Section Counter.
Variable get_successors : SimRun -> list SimRun.
Variable reanalyze : SimRun -> option SimState -> SimRun.
Variable initial_irsb : SimRun.

Lemma existsb_rid_false (x : nat) (pending : list RunWrapper) :
  existsb (fun s => (rid (run s) =? x)%nat) pending = false →
  x ∉ (rid ∘ run <$> pending).
Proof.
  induction pending as [|w pending IH]; simpl; intros H.
  - apply not_elem_of_nil.
  - apply orb_false_iff in H as [Hw Hrest]. apply Nat.eqb_neq in Hw.
    apply not_elem_of_cons. split; [done|by apply IH].
Qed.

Lemma expand_successor_ok (new_run : SimRun) (scanned : gmap nat nat) (cs : CallStack)
    (flag : bool) (successor : SimRun) (acc acc' : list RunWrapper * gset Z) :
  expand_successor new_run scanned cs flag successor acc = Ok acc' →
  pending_ok scanned acc.1 → pending_ok scanned acc'.1.
Proof.
  unfold expand_successor. destruct acc as [pending targets]. simpl.
  destruct (scanned !! rid successor) as [n|] eqn:Hn.
  - destruct (flag && (n <? MAX_BBL_ANALYZE_TIMES)%nat) eqn:Hre; simpl;
      [|by intros [= <-]].
    apply andb_true_iff in Hre as [_ Hlt]. apply Nat.ltb_lt in Hlt.
    destruct (existsb _ pending) eqn:Hdup; [by intros [= <-]|].
    case_bool_decide; [by intros [= <-]|].
    destruct (successor_call_stack _ _ _) as [ncs|]; [|done]. simpl.
    intros [= <-] [Hnd Hlow]. simpl. split.
    + apply NoDup_cons. split; [by apply existsb_rid_false|done].
    + intros w Hw. apply elem_of_cons in Hw as [->|Hw]; [|by apply Hlow].
      simpl. by rewrite Hn.
  - simpl. destruct (existsb _ pending) eqn:Hdup; [by intros [= <-]|].
    case_bool_decide; [by intros [= <-]|].
    destruct (successor_call_stack _ _ _) as [ncs|]; [|done]. simpl.
    intros [= <-] [Hnd Hlow]. simpl. split.
    + apply NoDup_cons. split; [by apply existsb_rid_false|done].
    + intros w Hw. apply elem_of_cons in Hw as [->|Hw]; [|by apply Hlow].
      simpl. rewrite Hn. simpl. unfold MAX_BBL_ANALYZE_TIMES. lia.
Qed.

Lemma expand_successors_ok (new_run : SimRun) (scanned : gmap nat nat) (cs : CallStack)
    (flag : bool) (successors : list SimRun) (acc acc' : list RunWrapper * gset Z) :
  expand_successors new_run scanned cs flag successors acc = Ok acc' →
  pending_ok scanned acc.1 → pending_ok scanned acc'.1.
Proof.
  revert acc. induction successors as [|s successors IH]; intros acc; simpl.
  - by intros [= <-].
  - destruct (expand_successor new_run scanned cs flag s acc) as [acc1|] eqn:H1; [|done].
    simpl. intros H Hok. apply (IH acc1 H). by eapply expand_successor_ok.
Qed.

Lemma walk_step_inv (st st' : WalkState) :
  walk_step get_successors reanalyze initial_irsb st = Ok st' →
  walk_inv st → walk_inv st'.
Proof.
  unfold walk_step. destruct (run_stack st) as [|w rest] eqn:Hstack; [by intros [= <-]|].
  intros Hstep [[Hnd Hlow] Hmax]. rewrite Hstack in Hnd, Hlow.
  apply NoDup_cons in Hnd as [Hw Hnd].
  revert Hstep. unfold walk_iteration, scan_count.
  destruct (MAX_BBL_ANALYZE_TIMES <? _)%nat.
  { intros [= <-]. simpl. split; [split; [done|]|done].
    intros w' Hw'. by apply Hlow, list_elem_of_further. }
  destruct (process_run _ _ _ _ _) as [[s i]|]; [|done]. simpl.
  destruct (expand_successors _ _ _ _ _ _) as [[pending targets]|] eqn:Hexp; [|done].
  simpl. intros [= <-]. simpl.
  assert ((default 0%nat (scanned_runs st !! rid (run w)) < MAX_BBL_ANALYZE_TIMES)%nat)
    as Hcur by apply Hlow, list_elem_of_here.
  split.
  - apply (expand_successors_ok _ _ _ _ _ _ _ Hexp). simpl. split; [done|].
    intros w' Hw'. rewrite lookup_insert_ne.
    + by apply Hlow, list_elem_of_further.
    + intros Heq. apply Hw. apply list_elem_of_fmap. exists w'. by split.
  - intros k n. simpl. destruct (decide (rid (run w) = k)) as [<-|Hne].
    + rewrite lookup_insert_eq. intros [= <-]. lia.
    + rewrite lookup_insert_ne by done. apply Hmax.
Qed.

Lemma walk_init_inv : walk_inv (walk_init initial_irsb).
Proof.
  split; [split|].
  - simpl. apply NoDup_singleton.
  - intros w Hw. simpl. rewrite lookup_empty. simpl. unfold MAX_BBL_ANALYZE_TIMES. lia.
  - intros k n. simpl. by rewrite lookup_empty.
Qed.

Lemma walk_reachable_inv (st : WalkState) :
  walk_reachable get_successors reanalyze initial_irsb st → walk_inv st.
Proof.
  induction 1 as [|st st' _ IH _ Hstep]; [apply walk_init_inv|].
  by eapply walk_step_inv.
Qed.

(** C1.  At the head of every iteration of the walk, no run has been
    scanned more than [MAX_BBL_ANALYZE_TIMES] times; an iteration changes
    the counter of the popped run only, by one, and only when it was at
    most [MAX_BBL_ANALYZE_TIMES]; a popped wrapper whose run is above the
    bound is dropped and nothing else changes. *)
Theorem scan_counter_bounded :
  (∀ st r, walk_reachable get_successors reanalyze initial_irsb st →
           (scan_count (scanned_runs st) r ≤ MAX_BBL_ANALYZE_TIMES)%nat) ∧
  (∀ st st' w rest,
     run_stack st = w :: rest →
     walk_step get_successors reanalyze initial_irsb st = Ok st' →
     if (MAX_BBL_ANALYZE_TIMES <? scan_count (scanned_runs st) (run w))%nat
     then st' = {| run_stack := rest; scanned_runs := scanned_runs st; ddg := ddg st;
                   symbolic_mem_ops := symbolic_mem_ops st; var_i := var_i st |}
     else scanned_runs st'
          = <[rid (run w) := S (scan_count (scanned_runs st) (run w))]> (scanned_runs st)).
Proof.
  split.
  - intros st r Hreach. destruct (walk_reachable_inv st Hreach) as [_ Hmax].
    unfold scan_count. destruct (scanned_runs st !! rid r) as [n|] eqn:Hn; simpl.
    + by eapply Hmax.
    + lia.
  - intros st st' w rest Hstack. unfold walk_step. rewrite Hstack.
    unfold walk_iteration.
    destruct (MAX_BBL_ANALYZE_TIMES <? _)%nat; [by intros [= <-]|].
    destruct (process_run _ _ _ _ _) as [[s i]|]; [|done]. simpl.
    destruct (expand_successors _ _ _ _ _ _) as [[pending targets]|]; [|done].
    simpl. by intros [= <-].
Qed.

End Counter.


(** ** Instances *)

Lemma scan_counter_bounded_witness :
  ∃ st', walk_step wr_successors same_run wr_entry (walk_init wr_entry) = Ok st' ∧
         scan_count (scanned_runs st') wr_entry = 1%nat ∧
         (scan_count (scanned_runs st') wr_entry ≤ MAX_BBL_ANALYZE_TIMES)%nat.
Proof.
  destruct (walk_step wr_successors same_run wr_entry (walk_init wr_entry))
    as [st'|] eqn:Hstep; [|by vm_compute in Hstep].
  exists st'. split; [done|]. split.
  - destruct (scan_counter_bounded wr_successors same_run wr_entry) as [_ Hone].
    specialize (Hone (walk_init wr_entry) st' _ [] eq_refl Hstep).
    simpl in Hone. unfold scan_count. rewrite Hone. reflexivity.
  - destruct (scan_counter_bounded wr_successors same_run wr_entry) as [Hall _].
    apply Hall. apply (reach_step _ _ _ (walk_init wr_entry)); [apply reach_init|done|done].
Defined.

Lemma first_resolved_read_witness :
  ∃ s1 s2,
    process_stmt 0x7fffe000 0x80000000 wr_entry 0x100 0
      {| refs := [SimMemWrite 0 (concrete 0x7ffffff0) [] [] [] []] |} fresh_scan = Ok s1 ∧
    process_stmt 0x7fffe000 0x80000000 wr_entry 0x100 1
      {| refs := [SimMemRead 1 (concrete 0x7ffffff0) [] [] [] [];
                  SimMemRead 1 (symbolic 0) [] [] [] [];
                  SimTmpWrite 1 0 [] []] |} s1 = Ok s2 ∧
    sc_ddg s2 = ddg_add 0x100 1 (0x100, 0) ∅ ∧
    sc_sym s2 = [].
Proof.
  destruct (first_resolved_read 0x7fffe000 0x80000000) as [_ Hpair].
  apply (Hpair wr_entry 0x100 0 1 0x7ffffff0
           [SimMemWrite 0 (concrete 0x7ffffff0) [] [] [] []]
           []
           [SimMemRead 1 (symbolic 0) [] [] [] []; SimTmpWrite 1 0 [] []]
           (SimMemWrite 0 (concrete 0x7ffffff0) [] [] [] [])
           (SimMemRead 1 (concrete 0x7ffffff0) [] [] [] [])
           (SimTmpWrite 1 0 [] [])
           fresh_scan).
  - done.
  - reflexivity.
  - by split.
  - intros y Hy. apply list_elem_of_singleton in Hy. by subst.
  - reflexivity.
  - reflexivity.
  - intros y Hy. by apply elem_of_nil in Hy.
  - by split.
Defined.

Lemma shared_source_edge_witness :
  ∃ g', solve_symbolic_mem_operations no_predecessors 1
          [(ptr_block, ptr_write); (ptr_block, ptr_read)] ∅ = Some (Ok g') ∧
        (0x100, 1) ∈ ddg_get g' 0x100 2.
Proof.
  exists {[ 0x100 := {[ 2 := {[ (0x100, 1) ]} ]} ]}.
  assert (solve_symbolic_mem_operations no_predecessors 1
            [(ptr_block, ptr_write); (ptr_block, ptr_read)] ∅
          = Some (Ok {[ 0x100 := {[ 2 := {[ (0x100, 1) ]} ]} ]})) as Hsolve
    by (vm_compute; reflexivity).
  split; [exact Hsolve|].
  apply (shared_source_edge no_predecessors 1
           [(ptr_block, ptr_write); (ptr_block, ptr_read)] ∅ _
           ptr_block ptr_block ptr_read ptr_write
           {[ (0x100, 0) ]} {[ (0x100, 0) ]} (0x100, 0) Hsolve).
  - apply list_elem_of_further, list_elem_of_here.
  - reflexivity.
  - apply list_elem_of_here.
  - reflexivity.
  - vm_compute. reflexivity.
  - vm_compute. reflexivity.
  - by apply elem_of_singleton.
  - by apply elem_of_singleton.
Defined.

(** * Further properties *)

(** ** Reference processing keeps the frames and only adds *)

Lemma ddg_le_refl (g : gmap Z (gmap Z (gset source))) : ddg_le g g.
Proof. by intros a i w. Qed.

Lemma ddg_le_trans (g1 g2 g3 : gmap Z (gmap Z (gset source))) :
  ddg_le g1 g2 → ddg_le g2 g3 → ddg_le g1 g3.
Proof. intros H12 H23 a i w Hw. by apply H23, H12. Qed.

Lemma scan_grows_refl (s : Scan) : scan_grows s s.
Proof. split; [done|]. split; [apply ddg_le_refl|done]. Qed.

Lemma scan_grows_trans (s1 s2 s3 : Scan) :
  scan_grows s1 s2 → scan_grows s2 s3 → scan_grows s1 s3.
Proof.
  intros (F12 & D12 & S12) (F23 & D23 & S23). split; [by rewrite F23|].
  split; [by eapply ddg_le_trans|]. by etrans.
Qed.

Lemma scan_grows_nonempty (s s' : Scan) :
  scan_grows s s' → sc_stack s ≠ [] → sc_stack s' ≠ [].
Proof.
  intros (F & _) Hne Hnil. rewrite Hnil in F. simpl in F.
  by destruct (sc_stack s).
Qed.

Lemma sym_add_subseteq (x : SimRun * SimRef) (ops : list (SimRun * SimRef)) :
  ops ⊆ sym_add x ops.
Proof.
  unfold sym_add. destruct (existsb (same_op x) ops); [done|].
  intros y Hy. apply elem_of_app. by left.
Qed.

Lemma add_sym_grows (x : SimRun * SimRef) (s : Scan) : scan_grows s (add_sym x s).
Proof.
  split; [done|]. split; [apply ddg_le_refl|]. apply sym_add_subseteq.
Qed.

Lemma add_edge_grows (a i : Z) (w : source) (s : Scan) : scan_grows s (add_edge a i w s).
Proof.
  split; [done|]. split; [|done]. intros a' i' w' Hw'. by apply ddg_add_mono.
Qed.

Section Processing.
Variables lbound ubound : Z.

Lemma record_write_grows (a : Z) (tpl : source) (s : Scan) :
  sc_stack s ≠ [] →
  ∃ s1, record_write lbound ubound a tpl s = Ok s1 ∧ scan_grows s s1.
Proof.
  intros Hne.
  destruct (record_write_lookup lbound ubound a tpl s Hne) as (s1 & Hrec & _).
  exists s1. split; [done|].
  destruct (record_write_frames lbound ubound a tpl s s1 Hrec) as (F & D & S).
  split; [done|]. split; [rewrite D; apply ddg_le_refl|by rewrite S].
Qed.

Lemma lookup_write_ok (a : Z) (s : Scan) :
  sc_stack s ≠ [] → ∃ hit, lookup_write lbound ubound a s = Ok hit.
Proof.
  intros Hne.
  destruct (find_frame_by_addr_ok lbound ubound (sc_stack s) a Hne)
    as (k & fr & Hfind & Hk).
  unfold lookup_write. rewrite Hfind. simpl. rewrite Hk. simpl. by eexists.
Qed.

Lemma scan_mem_reads_grows (old_irsb : SimRun) (a i : Z) (rs : list SimRef) (s : Scan) :
  sc_stack s ≠ [] →
  ∃ s', scan_mem_reads lbound ubound old_irsb a i rs s = Ok s' ∧ scan_grows s s'.
Proof.
  revert s. induction rs as [|ref rs IH]; intros s Hne.
  - exists s. split; [done|apply scan_grows_refl].
  - destruct ref; simpl; try (by apply IH).
    destruct (is_symbolic addr); simpl.
    + destruct (IH (add_sym (old_irsb, SimMemRead stmt_idx addr addr_reg_deps
                                          addr_tmp_deps data_reg_deps data_tmp_deps) s))
        as (s' & Hs' & Hg); [done|].
      exists s'. split; [done|]. eapply scan_grows_trans; [apply add_sym_grows|done].
    + destruct (lookup_write_ok (any addr) s Hne) as ([tpl|] & ->); simpl.
      * eexists. split; [done|apply add_edge_grows].
      * by apply IH.
Qed.

(** Processing a statement of a basic block never raises. *)
Lemma process_stmt_grows (old_irsb : SimRun) (a i : Z) (stmt : Stmt) (s : Scan) :
  sc_stack s ≠ [] →
  ∃ s', process_stmt lbound ubound old_irsb a i stmt s = Ok s' ∧ scan_grows s s'.
Proof.
  intros Hne. unfold process_stmt.
  destruct (last (refs stmt)) as [real_ref|]; [|exists s; split; [done|apply scan_grows_refl]].
  assert (∃ s1, match real_ref with
                | SimMemWrite _ addr _ _ _ _ =>
                    if negb (is_symbolic addr)
                    then record_write lbound ubound (any addr) (a, i) s
                    else Ok (add_sym (old_irsb, real_ref) s)
                | _ => Ok s
                end = Ok s1 ∧ scan_grows s s1) as (s1 & -> & Hg1).
  { destruct real_ref; try (exists s; split; [done|apply scan_grows_refl]).
    destruct (is_symbolic addr); simpl.
    - eexists. split; [done|apply add_sym_grows].
    - by apply record_write_grows. }
  simpl.
  destruct (scan_mem_reads_grows old_irsb a i (refs stmt) s1) as (s' & Hs' & Hg');
    [by eapply scan_grows_nonempty|].
  exists s'. split; [done|]. by eapply scan_grows_trans.
Qed.

Lemma process_stmts_grows (old_irsb : SimRun) (a i : Z) (stmts : list Stmt) (s : Scan) :
  sc_stack s ≠ [] →
  ∃ s', process_stmts lbound ubound old_irsb a i stmts s = Ok s' ∧ scan_grows s s'.
Proof.
  revert i s. induction stmts as [|stmt stmts IH]; intros i s Hne.
  - exists s. split; [done|apply scan_grows_refl].
  - simpl. destruct (process_stmt_grows old_irsb a i stmt s Hne) as (s1 & -> & Hg1).
    simpl. destruct (IH (i + 1) s1) as (s' & Hs' & Hg'); [by eapply scan_grows_nonempty|].
    exists s'. split; [done|]. by eapply scan_grows_trans.
Qed.

(** Processing the references of a summary run raises only for a concrete
    write while the local [i] is unbound. *)
Lemma process_proc_refs_grows (old_sim_proc : SimRun) (a : Z) (i : option Z)
    (rs : list SimRef) (s : Scan) :
  sc_stack s ≠ [] →
  (∃ s', process_proc_refs lbound ubound old_sim_proc a i rs s = Ok s' ∧ scan_grows s s') ∨
  (process_proc_refs lbound ubound old_sim_proc a i rs s = Err UnboundLocalError ∧
   i = None).
Proof.
  revert s. induction rs as [|ref rs IH]; intros s Hne.
  - left. exists s. split; [done|apply scan_grows_refl].
  - destruct ref; simpl; try (by apply IH).
    + destruct (is_symbolic addr); simpl.
      * destruct (IH (add_sym (old_sim_proc, SimMemRead stmt_idx addr addr_reg_deps
                                               addr_tmp_deps data_reg_deps data_tmp_deps) s))
          as [(s' & Hs' & Hg)|He]; [done| |by right].
        left. exists s'. split; [done|].
        eapply scan_grows_trans; [apply add_sym_grows|done].
      * destruct (lookup_write_ok (any addr) s Hne) as ([tpl|] & ->); simpl.
        -- left. eexists. split; [done|apply add_edge_grows].
        -- by apply IH.
    + destruct (is_symbolic addr); simpl.
      * destruct (IH (add_sym (old_sim_proc, SimMemWrite stmt_idx addr addr_reg_deps
                                               addr_tmp_deps data_reg_deps data_tmp_deps) s))
          as [(s' & Hs' & Hg)|He]; [done| |by right].
        left. exists s'. split; [done|].
        eapply scan_grows_trans; [apply add_sym_grows|done].
      * destruct i as [i|]; simpl; [|by right].
        destruct (record_write_grows (any addr) (a, i) s Hne) as (s1 & -> & Hg1). simpl.
        destruct (IH s1) as [(s' & Hs' & Hg)|He]; [by eapply scan_grows_nonempty| |by right].
        left. exists s'. split; [done|]. by eapply scan_grows_trans.
Qed.

End Processing.

(** ** How the forward walk can fail *)

Lemma successor_call_stack_cases (new_run : SimRun) (st : option SimState) (cs : CallStack) :
  (∃ cs', successor_call_stack new_run st cs = Ok cs' ∧ (cs ≠ [] → cs' ≠ [])) ∨
  (successor_call_stack new_run st cs = Err IndexError ∧ exits new_run = []) ∨
  (successor_call_stack new_run st cs = Err AttributeError ∧ st = None ∧
   ∃ ex0 rest, exits new_run = ex0 :: rest ∧ jumpkind ex0 = Ijk_Call).
Proof.
  unfold successor_call_stack. destruct (exits new_run) as [|ex0 rest] eqn:Hex.
  { right. left. by split. }
  change (py_index (ex0 :: rest) 0) with (Ok ex0). cbn [mbind Result_bind].
  destruct (jumpkind ex0) eqn:Hjk.
  - destruct st as [st|]; simpl.
    + left. eexists. split; [done|]. intros _. by destruct cs.
    + right. right. split; [done|]. split; [done|]. by exists ex0, rest.
  - left. destruct (1 <? length cs)%nat eqn:Hlen.
    + eexists. split; [done|]. intros _.
      destruct cs as [|fr1 [|fr2 cs]]; try done.
    + by eexists.
  - left. by eexists.
Qed.

Lemma expand_successor_cases (new_run : SimRun) (scanned : gmap nat nat) (cs : CallStack)
    (flag : bool) (successor : SimRun) (acc : list RunWrapper * gset Z) :
  cs ≠ [] → stacks_nonempty acc.1 →
  (∃ acc', expand_successor new_run scanned cs flag successor acc = Ok acc' ∧
           stacks_nonempty acc'.1 ∧
           ∀ w, w ∈ acc'.1 → w ∈ acc.1 ∨ run w = successor) ∨
  (expand_successor new_run scanned cs flag successor acc = Err IndexError ∧
   exits new_run = []) ∨
  (expand_successor new_run scanned cs flag successor acc = Err AttributeError ∧
   successor_state (exits new_run) (run_addr successor) = None ∧
   ∃ ex0 rest, exits new_run = ex0 :: rest ∧ jumpkind ex0 = Ijk_Call).
Proof.
  intros Hcs Hacc. unfold expand_successor. destruct acc as [pending targets].
  destruct (match scanned !! rid successor with
            | Some n => negb (flag && (n <? MAX_BBL_ANALYZE_TIMES)%nat)
            | None => false
            end); [left; eexists; split; [done|]; split; [done|by left]|].
  destruct (existsb _ pending); [left; eexists; split; [done|]; split; [done|by left]|].
  case_bool_decide; [left; eexists; split; [done|]; split; [done|by left]|].
  destruct (successor_call_stack_cases new_run
              (successor_state (exits new_run) (run_addr successor)) cs)
    as [(cs' & -> & Hcs')|[[-> Hex]|(-> & Hst & Hcall)]].
  - left. eexists. split; [done|]. simpl. split.
    + intros w Hw. apply elem_of_cons in Hw as [->|Hw]; [by apply Hcs'|by apply Hacc].
    + intros w Hw. apply elem_of_cons in Hw as [->|Hw]; [by right|by left].
  - right. left. by split.
  - right. right. by split.
Qed.

Lemma expand_successors_cases (new_run : SimRun) (scanned : gmap nat nat) (cs : CallStack)
    (flag : bool) (successors : list SimRun) (acc : list RunWrapper * gset Z) :
  cs ≠ [] → stacks_nonempty acc.1 →
  (∃ acc', expand_successors new_run scanned cs flag successors acc = Ok acc' ∧
           stacks_nonempty acc'.1 ∧
           ∀ w, w ∈ acc'.1 → w ∈ acc.1 ∨ run w ∈ successors) ∨
  (expand_successors new_run scanned cs flag successors acc = Err IndexError ∧
   exits new_run = []) ∨
  (expand_successors new_run scanned cs flag successors acc = Err AttributeError ∧
   (∃ s, s ∈ successors ∧ successor_state (exits new_run) (run_addr s) = None) ∧
   ∃ ex0 rest, exits new_run = ex0 :: rest ∧ jumpkind ex0 = Ijk_Call).
Proof.
  intros Hcs. revert acc. induction successors as [|s successors IH]; intros acc Hacc.
  - left. exists acc. split; [done|]. split; [done|]. by left.
  - simpl. destruct (expand_successor_cases new_run scanned cs flag s acc Hcs Hacc)
      as [(acc1 & -> & Hacc1 & Hfrom1)|[[-> Hex]|(-> & Hst & Hcall)]]; simpl.
    + destruct (IH acc1 Hacc1) as [(acc' & -> & Hacc' & Hfrom)|[[-> Hex]|(-> & Hst & Hcall)]].
      * left. exists acc'. split; [done|]. split; [done|].
        intros w Hw. destruct (Hfrom w Hw) as [Hw1|Hws].
        -- destruct (Hfrom1 w Hw1) as [?| ->]; [by left|right; apply list_elem_of_here].
        -- right. by apply list_elem_of_further.
      * right. left. by split.
      * right. right. split; [done|]. split; [|done].
        destruct Hst as (s' & Hs' & Hnone). exists s'. split; [|done].
        by apply list_elem_of_further.
    + right. left. by split.
    + right. right. split; [done|]. split; [|done]. exists s. split; [|done].
      apply list_elem_of_here.
Qed.

Section WalkFacts.
Variable get_successors : SimRun -> list SimRun.
Variable reanalyze : SimRun -> option SimState -> SimRun.
Variable initial_irsb : SimRun.

Lemma process_run_cases (old_run new_run : SimRun) (i : option Z) (s : Scan) :
  sc_stack s ≠ [] →
  (∃ s' i', process_run initial_irsb old_run new_run i s = Ok (s', i') ∧ scan_grows s s') ∨
  (process_run initial_irsb old_run new_run i s = Err UnboundLocalError ∧ i = None ∧
   ∃ rs, body new_run = SimProcedure rs).
Proof.
  intros Hne. unfold process_run. destruct (body new_run) as [stmts|rs].
  - destruct (process_stmts_grows (stack_lbound initial_irsb) (stack_ubound initial_irsb)
                old_run (run_addr new_run) 0 stmts s Hne) as (s' & -> & Hg).
    left. by eexists _, _.
  - destruct (process_proc_refs_grows (stack_lbound initial_irsb) (stack_ubound initial_irsb)
                old_run (run_addr new_run) i rs s Hne) as [(s' & -> & Hg)|[-> Hi]].
    + left. by eexists _, _.
    + right. split; [done|]. split; [done|]. by exists rs.
Qed.

(** One iteration from a state whose pending call stacks are non-empty:
    what it returns, or how it fails. *)
Lemma walk_step_cases (st : WalkState) (w : RunWrapper) (rest : list RunWrapper) :
  run_stack st = w :: rest → stacks_nonempty (run_stack st) →
  (∃ st', walk_step get_successors reanalyze initial_irsb st = Ok st' ∧
          stacks_nonempty (run_stack st') ∧
          ddg_le (ddg st) (ddg st') ∧
          symbolic_mem_ops st ⊆ symbolic_mem_ops st' ∧
          ∀ w', w' ∈ run_stack st' → w' ∈ rest ∨ run w' ∈ get_successors (run w)) ∨
  (walk_step get_successors reanalyze initial_irsb st = Err UnboundLocalError ∧
   var_i st = None ∧ ∃ rs, body (reanalyze (run w) (new_state w)) = SimProcedure rs) ∨
  (walk_step get_successors reanalyze initial_irsb st = Err IndexError ∧
   exits (reanalyze (run w) (new_state w)) = []) ∨
  (walk_step get_successors reanalyze initial_irsb st = Err AttributeError ∧
   (∃ s, s ∈ get_successors (run w) ∧
         successor_state (exits (reanalyze (run w) (new_state w))) (run_addr s) = None) ∧
   ∃ ex0 exs, exits (reanalyze (run w) (new_state w)) = ex0 :: exs ∧
              jumpkind ex0 = Ijk_Call).
Proof.
  intros Hstack Hne. unfold walk_step. rewrite Hstack. unfold walk_iteration.
  rewrite Hstack in Hne.
  assert (stacks_nonempty rest) as Hrest.
  { intros w' Hw'. by apply Hne, list_elem_of_further. }
  destruct (MAX_BBL_ANALYZE_TIMES <? _)%nat.
  { left. eexists. split; [done|]. simpl. split; [done|].
    split; [apply ddg_le_refl|]. split; [done|]. by left. }
  destruct (process_run_cases (run w) (reanalyze (run w) (new_state w)) (var_i st)
              {| sc_stack := call_stack w; sc_flag := reanalyze_successors w;
                 sc_ddg := ddg st; sc_sym := symbolic_mem_ops st |})
    as [(s & i & -> & Hg)|(-> & Hi & Hproc)].
  { simpl. apply Hne, list_elem_of_here. }
  2: { right. left. by split. }
  cbn [mbind Result_bind].
  destruct Hg as (Hframes & Hddg & Hsym). simpl in Hddg, Hsym.
  destruct (expand_successors_cases (reanalyze (run w) (new_state w))
              (<[rid (run w) := S (scan_count (scanned_runs st) (run w))]> (scanned_runs st))
              (sc_stack s) (sc_flag s) (get_successors (run w)) (rest, ∅))
    as [([pending targets] & -> & Hacc & Hfrom)|[[-> Hex]|(-> & Hst & Hcall)]].
  - eapply (scan_grows_nonempty _ s); [by split|]. simpl. apply Hne, list_elem_of_here.
  - done.
  - left. eexists. split; [done|]. simpl. by repeat split.
  - right. right. left. by split.
  - right. right. right. by split.
Qed.

Lemma walk_reachable_stacks (st : WalkState) :
  walk_reachable get_successors reanalyze initial_irsb st →
  stacks_nonempty (run_stack st).
Proof.
  induction 1 as [|st st' _ IH Hne Hstep].
  - intros w Hw. apply list_elem_of_singleton in Hw as ->. done.
  - destruct (run_stack st) as [|w rest] eqn:Hstack; [done|].
    rewrite <- Hstack in IH.
    destruct (walk_step_cases st w rest Hstack IH)
      as [(st'' & Hs & Hok & _)|[[Hs _]|[[Hs _]|[Hs _]]]];
      rewrite Hs in Hstep; [|done..].
    by injection Hstep as <-.
Qed.


(** X2.  Edges and symbolic operations are never taken back: what the DDG and
    the symbolic-operation set hold at the head of an iteration they
    still hold when the walk is over. *)
Theorem walk_loop_grows (fuel : nat) (st st' : WalkState) :
  walk_reachable get_successors reanalyze initial_irsb st →
  walk_loop get_successors reanalyze initial_irsb fuel st = Some (Ok st') →
  ddg_le (ddg st) (ddg st') ∧ symbolic_mem_ops st ⊆ symbolic_mem_ops st'.
Proof.
  revert st. induction fuel as [|fuel IH]; intros st Hreach; simpl.
  - destruct (run_stack st); [|done]. intros [= <-]. split; [apply ddg_le_refl|done].
  - destruct (run_stack st) as [|w rest] eqn:Hstack.
    { intros [= <-]. split; [apply ddg_le_refl|done]. }
    destruct (walk_step get_successors reanalyze initial_irsb st) as [st1|] eqn:Hstep;
      [|done].
    intros Hloop.
    assert (walk_reachable get_successors reanalyze initial_irsb st1) as Hreach1.
    { apply (reach_step _ _ _ st); [done|by rewrite Hstack|done]. }
    destruct (IH st1 Hreach1 Hloop) as [Hd Hs].
    destruct (walk_step_cases st w rest Hstack (walk_reachable_stacks st Hreach))
      as [(st'' & Hs'' & _ & Hd1 & Hs1 & _)|[[He _]|[[He _]|[He _]]]];
      rewrite Hstep in *; [|done..].
    injection Hs'' as <-. split; [by eapply ddg_le_trans|by etrans].
Qed.

End WalkFacts.

(** ** Termination of the forward walk *)




Section Termination.
Variable get_successors : SimRun -> list SimRun.
Variable reanalyze : SimRun -> option SimState -> SimRun.
Variable initial_irsb : SimRun.
Variable ids : list nat.
Hypothesis ids_nodup : NoDup ids.
Hypothesis ids_entry : rid initial_irsb ∈ ids.
Hypothesis ids_closed : ∀ r s, rid r ∈ ids → s ∈ get_successors r → rid s ∈ ids.




End Termination.


(** ** Frames: calls, returns and recorded writes *)

(** X4.  A call pushes a fresh frame at the callee's stack pointer and a
    return pops the innermost frame, so a return after a call hands back
    the caller's frames whatever the callee's frame [fr] has become; a
    return on a single frame leaves it in place. *)
Theorem call_then_return (call_run ret_run : SimRun) (exc exr : SimExit)
    (excs exrs : list SimExit) (s : SimState) (st' : option SimState)
    (cs : CallStack) (fr : StackFrame) :
  exits call_run = exc :: excs → jumpkind exc = Ijk_Call →
  exits ret_run = exr :: exrs → jumpkind exr = Ijk_Ret →
  successor_call_stack call_run (Some s) cs
    = Ok (cs ++ [ {| initial_sp := Some (any (sp_value s)); addr_to_ref := ∅ |} ]) ∧
  (cs ≠ [] → successor_call_stack ret_run st' (cs ++ [fr]) = Ok cs) ∧
  successor_call_stack ret_run st' [fr] = Ok [fr].
Proof.
  intros Hc Hcj Hr Hrj. unfold successor_call_stack. rewrite Hc, Hr.
  change (py_index (exc :: excs) 0) with (Ok exc).
  change (py_index (exr :: exrs) 0) with (Ok exr).
  cbn [mbind Result_bind of_option]. rewrite Hcj, Hrj.
  split; [done|]. split; [|done].
  intros Hne. rewrite length_app. simpl.
  destruct (Nat.ltb_spec 1 (length cs + 1)) as [_|Hlen].
  - by rewrite removelast_last.
  - destruct cs; [done|]. simpl in Hlen. lia.
Qed.

Lemma call_then_return_witness :
  successor_call_stack (miss_entry Ijk_Ret) None
    ([new_StackFrame (Some 0x80000000)]
       ++ [ {| initial_sp := Some 0x7fffff00; addr_to_ref := {[ 0x7ffffef0 := (0x400, 3) ]} |} ])
  = Ok [new_StackFrame (Some 0x80000000)].
Proof.
  eapply (call_then_return (miss_entry Ijk_Call) (miss_entry Ijk_Ret) _ _ [] [] st0 None
            [new_StackFrame (Some 0x80000000)]); done.
Defined.

Section Frames.
Variables lbound ubound : Z.

(** X5.  Recording a write: the address then looks up to the recorded tuple,
    every other address looks up as before, and the state changes (and
    the reanalysis flag is raised) exactly when the address did not
    already look up to that tuple. *)
Theorem record_write_spec (a : Z) (tpl : source) (s : Scan) :
  sc_stack s ≠ [] →
  ∃ s1,
    record_write lbound ubound a tpl s = Ok s1 ∧
    lookup_write lbound ubound a s1 = Ok (Some tpl) ∧
    (∀ b, b ≠ a → lookup_write lbound ubound b s1 = lookup_write lbound ubound b s) ∧
    (lookup_write lbound ubound a s = Ok (Some tpl) → s1 = s) ∧
    (lookup_write lbound ubound a s ≠ Ok (Some tpl) → sc_flag s1 = true) ∧
    record_write lbound ubound a tpl s1 = Ok s1.
Proof.
  intros Hne.
  destruct (find_frame_by_addr_ok lbound ubound (sc_stack s) a Hne)
    as (k & fr & Hfind & Hk).
  pose proof (lookup_lt_Some _ _ _ Hk) as Hlen.
  unfold record_write at 1. rewrite Hfind. cbn [mbind Result_bind]. rewrite Hk.
  cbn [of_option mbind Result_bind].
  assert (lookup_write lbound ubound a s = Ok (addr_to_ref fr !! a)) as Hold.
  { unfold lookup_write. rewrite Hfind. simpl. by rewrite Hk. }
  case_bool_decide as Hsame.
  - exists s. split; [done|]. rewrite Hold, Hsame. split; [done|]. split; [done|].
    split; [done|]. split; [done|].
    unfold record_write. rewrite Hfind. simpl. rewrite Hk. simpl.
    by rewrite bool_decide_eq_true_2.
  - set (fr' := {| initial_sp := initial_sp fr; addr_to_ref := <[a := tpl]> (addr_to_ref fr) |}).
    assert (initial_sp <$> <[k := fr']> (sc_stack s) = initial_sp <$> sc_stack s) as Hsps.
    { rewrite list_fmap_insert. simpl. apply list_insert_id.
      by rewrite list_lookup_fmap, Hk. }
    eexists. split; [done|].
    assert (∀ b, lookup_write lbound ubound b
                   {| sc_stack := <[k := fr']> (sc_stack s); sc_flag := true;
                      sc_ddg := sc_ddg s; sc_sym := sc_sym s |}
                 = (j ← find_frame_by_addr lbound ubound (sc_stack s) b;
                    f ← of_option IndexError (<[k := fr']> (sc_stack s) !! j);
                    Ok (addr_to_ref f !! b))) as Hlook.
    { intros b. unfold lookup_write. simpl.
      by rewrite (find_frame_by_addr_sps lbound ubound _ (sc_stack s)). }
    split; [|split; [|split; [|split]]].
    + rewrite Hlook, Hfind. simpl. rewrite list_lookup_insert_eq by done. simpl.
      by rewrite lookup_insert_eq.
    + intros b Hb. rewrite Hlook. unfold lookup_write.
      destruct (find_frame_by_addr lbound ubound (sc_stack s) b) as [j|]; [|done]. simpl.
      destruct (decide (j = k)) as [->|Hjk].
      * rewrite list_lookup_insert_eq by done. rewrite Hk. simpl.
        by rewrite lookup_insert_ne.
      * by rewrite list_lookup_insert_ne.
    + rewrite Hold. intros [= Heq]. by rewrite Heq in Hsame.
    + done.
    + unfold record_write. simpl.
      rewrite (find_frame_by_addr_sps lbound ubound _ (sc_stack s)) by done.
      rewrite Hfind. simpl. rewrite list_lookup_insert_eq by done. simpl.
      rewrite lookup_insert_eq. by rewrite bool_decide_eq_true_2.
Qed.

(** ** References of a summary run *)

Lemma process_proc_refs_pass (old_sim_proc : SimRun) (a : Z) (i : option Z)
    (pre rest : list SimRef) (s : Scan) :
  (∀ x, x ∈ pre → read_passes lbound ubound s x ∧ no_concrete_write x) →
  process_proc_refs lbound ubound old_sim_proc a i (pre ++ rest) s =
  process_proc_refs lbound ubound old_sim_proc a i rest
    (foldl (note_symbolic_op old_sim_proc) s pre).
Proof.
  revert s. induction pre as [|x pre IH]; intros s Hpass; [done|].
  assert (∀ s', sc_stack s' = sc_stack s →
                ∀ y, y ∈ pre → read_passes lbound ubound s' y ∧ no_concrete_write y) as Hrest.
  { intros s' Hs' y Hy. destruct (Hpass y (list_elem_of_further _ _ _ Hy)) as [Hp Hw].
    split; [|done]. destruct y; try done. unfold read_passes, lookup_write in *.
    by rewrite Hs'. }
  destruct (Hpass x (list_elem_of_here _ _)) as [Hp Hw].
  destruct x; simpl; try (apply IH, Hrest; done).
  - simpl in Hp. destruct (is_symbolic addr) eqn:Hsym; simpl.
    + apply IH, Hrest. done.
    + destruct Hp as [|Hnone]; [done|]. rewrite Hnone. simpl. apply IH, Hrest. done.
  - simpl in Hw. rewrite Hw. simpl. apply IH, Hrest. done.
Qed.

Lemma foldl_note_symbolic_op (old_sim_proc : SimRun) (pre : list SimRef) (s : Scan) :
  sc_stack (foldl (note_symbolic_op old_sim_proc) s pre) = sc_stack s ∧
  sc_ddg (foldl (note_symbolic_op old_sim_proc) s pre) = sc_ddg s.
Proof.
  revert s. induction pre as [|x pre IH]; intros s; [done|]. simpl.
  destruct (IH (note_symbolic_op old_sim_proc s x)) as (-> & ->).
  destruct x; try done; simpl; by destruct (is_symbolic addr).
Qed.

(** X6.  In a summary run the first read that finds its writer ends the
    processing of the run: the references after it, writes included, are
    not looked at, so no frame changes; the edge is filed under statement
    [-1]. *)
Theorem summary_read_hit_stops (old_sim_proc : SimRun) (a : Z) (i : option Z)
    (pre post : list SimRef) (r : SimRef) (w : source) (s : Scan) :
  (∀ x, x ∈ pre → read_passes lbound ubound s x ∧ no_concrete_write x) →
  read_resolves lbound ubound s r w →
  ∃ s',
    process_proc_refs lbound ubound old_sim_proc a i (pre ++ r :: post) s = Ok s' ∧
    process_proc_refs lbound ubound old_sim_proc a i (pre ++ [r]) s = Ok s' ∧
    sc_stack s' = sc_stack s ∧
    sc_ddg s' = ddg_add a (-1) w (sc_ddg s) ∧
    sc_sym s' = sc_sym (foldl (note_symbolic_op old_sim_proc) s pre).
Proof.
  intros Hpass Hres.
  exists (add_edge a (-1) w (foldl (note_symbolic_op old_sim_proc) s pre)).
  rewrite !process_proc_refs_pass by done.
  destruct (foldl_note_symbolic_op old_sim_proc pre s) as (Hstk & Hddg).
  destruct r; try done. destruct Hres as [Hsym Hhit]. simpl. rewrite Hsym. simpl.
  unfold lookup_write in *. rewrite Hstk, Hhit. simpl.
  do 2 (split; [done|]). split; [done|]. split; [by rewrite Hddg|done].
Qed.

(** X7.  While the local [i] is unbound, a summary run that reaches a write to
    a concrete address, no read before it having found its writer, raises
    [UnboundLocalError]. *)
Theorem summary_write_unbound (old_sim_proc : SimRun) (a x : Z)
    (pre post : list SimRef) (wr : SimRef) (s : Scan) :
  (∀ y, y ∈ pre → read_passes lbound ubound s y) →
  writes_concrete x wr →
  process_proc_refs lbound ubound old_sim_proc a None (pre ++ wr :: post) s
    = Err UnboundLocalError.
Proof.
  revert s. induction pre as [|y pre IH]; intros s Hpass Hwr.
  - destruct wr; try done. destruct Hwr as [Hsym _]. simpl. by rewrite Hsym.
  - assert (∀ s', sc_stack s' = sc_stack s →
                  ∀ z, z ∈ pre → read_passes lbound ubound s' z) as Hrest.
    { intros s' Hs' z Hz. specialize (Hpass z (list_elem_of_further _ _ _ Hz)).
      destruct z; try done. unfold read_passes, lookup_write in *. by rewrite Hs'. }
    specialize (Hpass y (list_elem_of_here _ _)).
    destruct y; simpl; try (apply IH; [by apply Hrest|done]).
    + simpl in Hpass. destruct (is_symbolic addr) eqn:Hsym; simpl.
      * apply IH; [by apply Hrest|done].
      * destruct Hpass as [|Hnone]; [done|]. rewrite Hnone. simpl.
        apply IH; [by apply Hrest|done].
    + destruct (is_symbolic addr); simpl; [|done].
      apply IH; [by apply Hrest|done].
Qed.

End Frames.

Lemma record_write_spec_witness :
  ∃ s1, record_write 0x7fffe000 0x80000000 0x5000 (0x200, 2) fresh_scan = Ok s1 ∧
        lookup_write 0x7fffe000 0x80000000 0x5000 s1 = Ok (Some (0x200, 2)) ∧
        sc_flag s1 = true.
Proof.
  destruct (record_write_spec 0x7fffe000 0x80000000 0x5000 (0x200, 2) fresh_scan)
    as (s1 & Hrec & Hlook & _ & _ & Hflag & _); [done|].
  exists s1. split; [done|]. split; [done|]. apply Hflag.
  vm_compute. intros H. discriminate H.
Defined.

Lemma summary_read_hit_stops_witness :
  ∃ s', process_proc_refs 0x7fffe000 0x80000000 wr_proc 0x200 (Some 2)
          [SimRegRead (-1) 16 [] [];
           SimMemRead (-1) (concrete 0x5000) [] [] [] [];
           SimMemWrite (-1) (concrete 0x6000) [] [] [] []]
          {| sc_stack := [ {| initial_sp := Some 0x80000000;
                              addr_to_ref := {[ 0x5000 := (0x100, 4) ]} |} ];
             sc_flag := false; sc_ddg := ∅; sc_sym := [] |} = Ok s' ∧
        sc_stack s' = [ {| initial_sp := Some 0x80000000;
                           addr_to_ref := {[ 0x5000 := (0x100, 4) ]} |} ] ∧
        sc_ddg s' = ddg_add 0x200 (-1) (0x100, 4) ∅.
Proof.
  destruct (summary_read_hit_stops 0x7fffe000 0x80000000 wr_proc 0x200 (Some 2)
              [SimRegRead (-1) 16 [] []]
              [SimMemWrite (-1) (concrete 0x6000) [] [] [] []]
              (SimMemRead (-1) (concrete 0x5000) [] [] [] []) (0x100, 4)
              {| sc_stack := [ {| initial_sp := Some 0x80000000;
                                  addr_to_ref := {[ 0x5000 := (0x100, 4) ]} |} ];
                 sc_flag := false; sc_ddg := ∅; sc_sym := [] |})
    as (s' & Hall & _ & Hstk & Hddg & _).
  - intros x Hx. apply list_elem_of_singleton in Hx as ->. done.
  - split; [done|]. vm_compute. reflexivity.
  - exists s'. by repeat split.
Defined.

Lemma summary_write_unbound_witness :
  process_proc_refs 0x7fffe000 0x80000000 wr_proc 0x200 None
    ([SimMemRead (-1) (symbolic 0) [] [] [] []]
       ++ SimMemWrite (-1) (concrete 0x5000) [] [] [] [] :: []) fresh_scan
  = Err UnboundLocalError.
Proof.
  apply (summary_write_unbound 0x7fffe000 0x80000000 wr_proc 0x200 0x5000).
  - intros y Hy. apply list_elem_of_singleton in Hy as ->. by left.
  - by split.
Defined.

(** ** The tracer after its first line *)

Lemma stmt_ids_range (stmts : list Stmt) (sid : Z) (k : nat) :
  sid < Z.of_nat (length stmts) → k ∈ stmt_ids stmts sid →
  (k < length stmts)%nat ∧ (sid = -1 ∨ Z.of_nat k ≤ sid).
Proof.
  intros Hsid Hk. unfold stmt_ids in Hk.
  apply list_elem_of_In, in_rev, in_seq in Hk.
  destruct (Z.eqb_spec sid (-1)) as [->|Hne]; [lia|]. lia.
Qed.

Lemma visit_ref_map (l : nat) (sid : Z) (ref : SimRef) (v : Visit) (reg k : Z) :
  v_map (visit_ref l sid ref v) !! reg = Some k →
  v_map v !! reg = Some k ∨ (k = sid ∧ ∃ i drd dtd, ref = SimRegWrite i reg drd dtd).
Proof.
  destruct ref; simpl; try (by left).
  - case_bool_decide; [|by left]. simpl.
    destruct (decide (offset = reg)) as [->|Hne].
    + rewrite lookup_insert_eq. intros [= <-]. right. split; [done|]. by eexists _, _, _.
    + rewrite lookup_insert_ne by done. by left.
  - case_bool_decide; by left.
Qed.

Lemma visit_ref_alive (l : nat) (sid : Z) (ref : SimRef) (v : Visit) :
  (l < length (v_heap v))%nat →
  heap_get (v_heap v) l ≠ ∅ ∨ v_map v ≠ ∅ →
  (l < length (v_heap (visit_ref l sid ref v)))%nat ∧
  (heap_get (v_heap (visit_ref l sid ref v)) l ≠ ∅ ∨ v_map (visit_ref l sid ref v) ≠ ∅).
Proof.
  intros Hl Halive. destruct ref; simpl; try done.
  - case_bool_decide; [|done]. simpl. rewrite length_insert. split; [done|].
    right. apply insert_non_empty.
  - case_bool_decide; [|done]. simpl. rewrite length_insert. split; [done|].
    destruct Halive as [Hregs|Hmap]; [left|by right].
    unfold heap_get at 1. rewrite list_lookup_insert_eq by done. simpl.
    intros Hempty. apply Hregs. apply (anti_symm (⊆)); [|apply empty_subseteq].
    rewrite <- Hempty. apply union_subseteq_l.
Qed.

Lemma visit_stmts_facts (stmts : list Stmt) (l : nat) (ids : list nat) (v : Visit) :
  (∀ k, k ∈ ids → (k < length stmts)%nat) →
  ∃ v',
    visit_stmts stmts l ids v = Ok v' ∧
    (∀ reg k, v_map v' !! reg = Some k →
       v_map v !! reg = Some k ∨
       ∃ n stmt i drd dtd, k = Z.of_nat n ∧ n ∈ ids ∧ stmts !! n = Some stmt ∧
                           last (refs stmt) = Some (SimRegWrite i reg drd dtd)) ∧
    ((l < length (v_heap v))%nat →
     heap_get (v_heap v) l ≠ ∅ ∨ v_map v ≠ ∅ →
     heap_get (v_heap v') l ≠ ∅ ∨ v_map v' ≠ ∅).
Proof.
  revert v. induction ids as [|n ids IH]; intros v Hrange.
  - exists v. split; [done|]. split; [by left|done].
  - simpl. destruct (stmts !! n) as [stmt|] eqn:Hn.
    2: { apply lookup_ge_None in Hn. specialize (Hrange n (list_elem_of_here _ _)). lia. }
    simpl.
    destruct (IH (match last (refs stmt) with
                  | Some real_ref => visit_ref l (Z.of_nat n) real_ref v
                  | None => v
                  end)) as (v' & Hv' & Hmap & Halive).
    { intros k Hk. by apply Hrange, list_elem_of_further. }
    exists v'. split; [done|]. split.
    + intros reg k Hk. destruct (Hmap reg k Hk) as [Hprev|(m & stmt' & i & drd & dtd & H)].
      * destruct (last (refs stmt)) as [real_ref|] eqn:Hlast; [|by left].
        destruct (visit_ref_map _ _ _ _ _ _ Hprev) as [?|(-> & i & drd & dtd & ->)];
          [by left|].
        right. exists n, stmt, i, drd, dtd. split; [done|].
        split; [apply list_elem_of_here|done].
      * right. exists m, stmt', i, drd, dtd.
        destruct H as (? & ? & ? & ?). split; [done|].
        split; [by apply list_elem_of_further|done].
    + intros Hl Ha. destruct (last (refs stmt)) as [real_ref|]; [|by apply Halive].
      destruct (visit_ref_alive l (Z.of_nat n) real_ref v Hl Ha). by apply Halive.
Qed.

Lemma visit_proc_facts (l : nat) (rs : list SimRef) (v : Visit) :
  (∀ reg k, v_map (foldl (fun v ref => visit_ref l (-1) ref v) v rs) !! reg = Some k →
     v_map v !! reg = Some k ∨
     (k = -1 ∧ ∃ i drd dtd, SimRegWrite i reg drd dtd ∈ rs)) ∧
  ((l < length (v_heap v))%nat →
   heap_get (v_heap v) l ≠ ∅ ∨ v_map v ≠ ∅ →
   heap_get (v_heap (foldl (fun v ref => visit_ref l (-1) ref v) v rs)) l ≠ ∅ ∨
   v_map (foldl (fun v ref => visit_ref l (-1) ref v) v rs) ≠ ∅).
Proof.
  revert v. induction rs as [|ref rs IH]; intros v; [split; [by left|done]|].
  simpl. destruct (IH (visit_ref l (-1) ref v)) as [Hmap Halive]. split.
  - intros reg k Hk. destruct (Hmap reg k Hk) as [Hprev|(-> & i & drd & dtd & Hin)].
    + destruct (visit_ref_map _ _ _ _ _ _ Hprev) as [?|(-> & i & drd & dtd & ->)];
        [by left|].
      right. split; [done|]. exists i, drd, dtd. apply list_elem_of_here.
    + right. split; [done|]. exists i, drd, dtd. by apply list_elem_of_further.
  - intros Hl Ha. destruct (visit_ref_alive l (-1) ref v Hl Ha). by apply Halive.
Qed.

(** The walk over a run does not raise when it starts at a statement of
    the run; every register it resolves is resolved to a statement that
    writes it; and it does not lose a non-empty dependency set without
    resolving a register. *)
Lemma visit_run_facts (r : SimRun) (sid : Z) (l : nat) (h : Heap) (tmps : gset Z) :
  entry_ok {| te_run := r; te_stmt_id := sid; te_reg_deps := l; te_tmp_deps := tmps |} →
  ∃ v,
    visit_run r sid l {| v_heap := h; v_tmp := tmps; v_map := ∅ |} = Ok v ∧
    (∀ reg k, v_map v !! reg = Some k → writes_reg_at r k reg) ∧
    (heap_get h l ≠ ∅ → heap_get (v_heap v) l ≠ ∅ ∨ v_map v ≠ ∅).
Proof.
  unfold entry_ok, visit_run, writes_reg_at. simpl. intros Hok.
  destruct (body r) as [stmts|rs].
  - destruct (visit_stmts_facts stmts l (stmt_ids stmts sid)
                {| v_heap := h; v_tmp := tmps; v_map := ∅ |})
      as (v & Hv & Hmap & Halive).
    { intros k Hk. by apply (stmt_ids_range stmts sid k Hok). }
    exists v. split; [done|]. split.
    + intros reg k Hk. destruct (Hmap reg k Hk) as [Hprev|(n & stmt & i & drd & dtd & H)].
      * simpl in Hprev. by rewrite lookup_empty in Hprev.
      * destruct H as (-> & _ & Hn & Hlast). exists stmt, i, drd, dtd.
        split; [lia|]. by rewrite Nat2Z.id.
    + intros Hne. apply Halive; [|by left]. simpl.
      apply lookup_lt_is_Some. unfold heap_get in Hne.
      destruct (h !! l); [by eexists|done].
  - eexists. split; [done|].
    destruct (visit_proc_facts l (rev rs) {| v_heap := h; v_tmp := tmps; v_map := ∅ |})
      as [Hmap Halive]. split.
    + intros reg k Hk. destruct (Hmap reg k Hk) as [Hprev|(-> & i & drd & dtd & Hin)].
      * simpl in Hprev. by rewrite lookup_empty in Hprev.
      * split; [done|]. exists i, drd, dtd.
        apply list_elem_of_In. apply in_rev. by apply list_elem_of_In.
    + intros Hne. apply Halive; [|by left]. simpl.
      apply lookup_lt_is_Some. unfold heap_get in Hne.
      destruct (h !! l); [by eexists|done].
Qed.

Lemma resolved_sources_elem (a : Z) (m : gmap Z Z) (src : source) :
  src ∈ resolved_sources a m ↔ ∃ reg k, m !! reg = Some k ∧ src = (a, k).
Proof.
  unfold resolved_sources. rewrite elem_of_list_to_set, list_elem_of_fmap. split.
  - intros ([reg k] & -> & Hin). apply elem_of_map_to_list in Hin. by exists reg, k.
  - intros (reg & k & Hm & ->). exists (reg, k). split; [done|].
    by apply elem_of_map_to_list.
Qed.

Section TraceSafety.
Variable get_predecessors : SimRun -> list SimRun.

Lemma push_predecessor_entries (reg_deps : gset Z) (tr : gmap Z nat) (s : SimRun)
    (acc : Heap * list TraceEntry) (e : TraceEntry) :
  e ∈ (push_predecessor reg_deps tr s acc).2 → e ∈ acc.2 ∨ te_stmt_id e = -1.
Proof.
  unfold push_predecessor. destruct acc as [h stk].
  destruct (tr !! run_addr s) as [lo|].
  - case_bool_decide; [by left|]. simpl. intros He.
    apply elem_of_cons in He as [->|He]; [by right|by left].
  - simpl. intros He. apply elem_of_cons in He as [->|He]; [by right|by left].
Qed.

Lemma trace_visit_facts (e : TraceEntry) (st : TraceState) :
  entry_ok e →
  ∃ st',
    trace_visit get_predecessors e st = Ok st' ∧
    (∀ e', e' ∈ stack st' → e' ∈ stack st ∨ te_stmt_id e' = -1) ∧
    (get_predecessors (te_run e) = [] → stack st' = stack st) ∧
    (∀ src, src ∈ sources st' →
       src ∈ sources st ∨ (∃ reg, src = sentinel_source reg) ∨
       ∃ reg k, src = (run_addr (te_run e), k) ∧ writes_reg_at (te_run e) k reg) ∧
    (get_predecessors (te_run e) = [] → heap_get (heap st) (te_reg_deps e) ≠ ∅ →
     sources st' ≠ ∅).
Proof.
  intros Hok. destruct e as [r sid l tmps].
  destruct (visit_run_facts r sid l (heap st) tmps Hok) as (v & Hv & Hmap & Halive).
  unfold trace_visit. cbn [te_run te_stmt_id te_reg_deps te_tmp_deps]. rewrite Hv.
  cbn [mbind Result_bind].
  destruct (if bool_decide (heap_get (v_heap v) l = ∅) then (v_heap v, stack st)
            else foldl (fun acc s => push_predecessor (heap_get (v_heap v) l) (traced st) s acc)
                       (v_heap v, stack st) (get_predecessors r)) as [h stk] eqn:Hpush.
  eexists. split; [done|]. cbn [stack sources].
  split; [|split; [|split]].
  - assert (∀ e', e' ∈ (h, stk).2 → e' ∈ stack st ∨ te_stmt_id e' = -1) as Hall; [|done].
    rewrite <- Hpush. case_bool_decide; [by left|].
    apply (foldl_preserve _ (fun acc => ∀ e', e' ∈ acc.2 → e' ∈ stack st ∨ te_stmt_id e' = -1));
      [|by left].
    intros acc s Hacc e' He'.
    destruct (push_predecessor_entries _ _ _ _ _ He') as [Hin|?]; [by apply Hacc|by right].
  - intros Hnone. rewrite Hnone in Hpush. simpl in Hpush.
    destruct (bool_decide _) in Hpush; by injection Hpush as _ <-.
  - intros src Hsrc. apply elem_of_union in Hsrc as [Hsrc|Hsent].
    + apply elem_of_union in Hsrc as [?|Hres]; [by left|].
      apply resolved_sources_elem in Hres as (reg & k & Hk & ->).
      right. right. exists reg, k. split; [done|]. by apply Hmap.
    + right. left. unfold sentinel_sources in Hsent.
      destruct (_ || _); [|by apply elem_of_empty in Hsent].
      apply elem_of_map in Hsent as (reg & -> & _). by exists reg.
  - intros Hnone Hne. destruct (Halive Hne) as [Hregs|Hm].
    + destruct (decide (v_map v = ∅)) as [Hempty|Hm]; [|clear Hregs].
      * apply set_choose_L in Hregs as [reg Hreg].
        apply (non_empty_inhabited_L (sentinel_source reg)).
        apply elem_of_union_r. unfold sentinel_sources. rewrite Hnone.
        rewrite (bool_decide_eq_true_2 ([] = [])) by done. rewrite orb_true_r.
        apply elem_of_map. exists reg. split; [done|].
        rewrite Hempty, dom_empty_L. by apply elem_of_difference.
      * apply map_choose in Hm as (reg & k & Hk).
        apply (non_empty_inhabited_L (run_addr r, k)).
        apply elem_of_union_l, elem_of_union_r, resolved_sources_elem. by exists reg, k.
    + apply map_choose in Hm as (reg & k & Hk).
      apply (non_empty_inhabited_L (run_addr r, k)).
      apply elem_of_union_l, elem_of_union_r, resolved_sources_elem. by exists reg, k.
Qed.



Lemma seed_ref_entry_ok (init_run : SimRun) (init_ref real_ref : SimRef) (l : nat)
    (tmps : gset Z) :
  seed_ref init_run init_ref = Ok real_ref →
  entry_ok {| te_run := init_run; te_stmt_id := ref_stmt_idx init_ref;
              te_reg_deps := l; te_tmp_deps := tmps |}.
Proof.
  unfold seed_ref, run_statements, entry_ok. simpl.
  destruct (body init_run) as [stmts|rs]; [|done]. simpl.
  unfold py_index. destruct (Z.leb_spec 0 (ref_stmt_idx init_ref)) as [Hpos|Hneg]; [|lia].
  destruct (stmts !! Z.to_nat (ref_stmt_idx init_ref)) as [stmt|] eqn:Hk; [|done].
  apply lookup_lt_Some in Hk. lia.
Qed.


(** X9.  A trace seeded at a run without predecessors is over after one
    iteration, and it does not come back empty-handed: with a non-empty
    set of seed registers it returns at least one source. *)
Theorem trace_source_no_predecessors (fuel : nat) (init_run : SimRun)
    (init_ref real_ref : SimRef) :
  get_predecessors init_run = [] →
  seed_ref init_run init_ref = Ok real_ref →
  ∃ srcs,
    trace_source get_predecessors (S fuel) init_run init_ref = Some (Ok srcs) ∧
    ((seed_deps real_ref).1 ≠ ∅ → srcs ≠ ∅).
Proof.
  intros Hnone Hseed. unfold trace_source, trace_init. rewrite Hseed.
  cbn [mbind Result_bind trace_loop stack]. unfold trace_step. cbn [stack].
  destruct (trace_visit_facts
              {| te_run := init_run; te_stmt_id := ref_stmt_idx init_ref;
                 te_reg_deps := 0; te_tmp_deps := (seed_deps real_ref).2 |}
              (trace_record
                 {| te_run := init_run; te_stmt_id := ref_stmt_idx init_ref;
                    te_reg_deps := 0; te_tmp_deps := (seed_deps real_ref).2 |} []
                 {| heap := [(seed_deps real_ref).1];
                    stack := [ {| te_run := init_run; te_stmt_id := ref_stmt_idx init_ref;
                                  te_reg_deps := 0;
                                  te_tmp_deps := (seed_deps real_ref).2 |} ];
                    traced := ∅; sources := ∅ |}))
    as (st' & -> & _ & Hstk & _ & Hne).
  { by eapply seed_ref_entry_ok. }
  exists (sources st'). specialize (Hstk Hnone). simpl in Hstk.
  split; [by destruct fuel; simpl; rewrite Hstk|].
  intros Hregs. by apply Hne.
Qed.

End TraceSafety.

Lemma trace_source_no_predecessors_witness :
  ∃ srcs, trace_source no_predecessors 1 reg0_block reg0_read = Some (Ok srcs) ∧ srcs ≠ ∅.
Proof.
  destruct (trace_source_no_predecessors no_predecessors 0 reg0_block reg0_read reg0_read)
    as (srcs & Hsrc & Hne); [done|done|].
  exists srcs. split; [done|]. apply Hne.
  intros Hempty. assert (0 ∈ (seed_deps reg0_read).1) as Hin by by_computation.
  rewrite Hempty in Hin. by apply elem_of_empty in Hin.
Defined.


(** ** What the reconciliation pass adds *)

Lemma foldl_origin {A B} (f : B → A → B) (P : B → Prop) (R : A → Prop)
    (l : list A) (b : B) :
  (∀ b' y, y ∈ l → P (f b' y) → P b' ∨ R y) →
  P (foldl f b l) → P b ∨ ∃ y, y ∈ l ∧ R y.
Proof.
  revert b. induction l as [|y l IH]; intros b Hstep Hfold; [by left|].
  simpl in Hfold. destruct (IH (f b y)) as [Hb|(y' & Hy' & HR)]; [|done| |].
  - intros b' y' Hy'. apply Hstep. by apply list_elem_of_further.
  - destruct (Hstep b y (list_elem_of_here _ _) Hb) as [?|HR]; [by left|].
    right. exists y. split; [apply list_elem_of_here|done].
  - right. exists y'. split; [by apply list_elem_of_further|done].
Qed.

Lemma link_pairs_origin (lst_reads lst_writes : list (Z * SimRef))
    (g : gmap Z (gmap Z (gset source))) (a i : Z) (w : source) :
  w ∈ ddg_get (link_pairs lst_reads lst_writes g) a i →
  w ∈ ddg_get g a i ∨
  ∃ rd, rd ∈ lst_reads ∧ ∃ wr, wr ∈ lst_writes ∧
        a = rd.1 ∧ i = ref_stmt_idx rd.2 ∧ w = (wr.1, ref_stmt_idx wr.2).
Proof.
  unfold link_pairs.
  apply (foldl_origin _ (fun g' => w ∈ ddg_get g' a i)
           (fun rd => ∃ wr, wr ∈ lst_writes ∧
                            a = rd.1 ∧ i = ref_stmt_idx rd.2 ∧ w = (wr.1, ref_stmt_idx wr.2))).
  intros g1 rd _.
  apply (foldl_origin _ (fun g' => w ∈ ddg_get g' a i)
           (fun wr => a = rd.1 ∧ i = ref_stmt_idx rd.2 ∧ w = (wr.1, ref_stmt_idx wr.2))).
  intros g2 wr _ Hw. rewrite ddg_get_add in Hw. case_decide as Heq; [|by left].
  injection Heq as -> ->. apply elem_of_union in Hw as [Hw|Hw]; [by left|].
  apply elem_of_singleton in Hw as ->. by right.
Qed.

Lemma link_producers_origin (reads writes : gmap source (list (Z * SimRef)))
    (g : gmap Z (gmap Z (gset source))) (a i : Z) (w : source) :
  w ∈ ddg_get (link_producers reads writes g) a i →
  w ∈ ddg_get g a i ∨
  ∃ src rd wr, produced_by reads src rd ∧ produced_by writes src wr ∧
               a = rd.1 ∧ i = ref_stmt_idx rd.2 ∧ w = (wr.1, ref_stmt_idx wr.2).
Proof.
  unfold link_producers. intros Hw.
  apply (foldl_origin _ (fun g' => w ∈ ddg_get g' a i)
           (fun kv : source * list (Z * SimRef) =>
              ∃ rd wr : Z * SimRef, produced_by reads kv.1 rd ∧ wr ∈ kv.2 ∧
                       a = rd.1 ∧ i = ref_stmt_idx rd.2 ∧ w = (wr.1, ref_stmt_idx wr.2)))
    in Hw as [?|([src lw] & Hin & rd & wr & Hrd & Hwr & H)].
  - by left.
  - right. exists src, rd, wr. split; [done|]. split; [|done].
    exists lw. split; [by apply elem_of_map_to_list|done].
  - intros g1 [src lw] _ Hw'. simpl in Hw'.
    destruct (reads !! src) as [lr|] eqn:Hlr; [|by left].
    destruct (link_pairs_origin _ _ _ _ _ _ Hw') as [?|(rd & Hrd & wr & Hwr & H)]; [by left|].
    right. exists rd, wr. split; [by exists lr|done].
Qed.

Lemma add_producer_origin (d : gmap source (list (Z * SimRef))) (src src' : source)
    (x x' : Z * SimRef) :
  produced_by (add_producer src' x' d) src x →
  produced_by d src x ∨ (src = src' ∧ x = x').
Proof.
  unfold produced_by, add_producer. intros (l & Hl & Hx).
  destruct (decide (src' = src)) as [->|Hne].
  - rewrite lookup_insert_eq in Hl. injection Hl as <-.
    apply elem_of_app in Hx as [Hx|Hx].
    + left. destruct (d !! src) as [l0|]; [by exists l0|by apply elem_of_nil in Hx].
    + apply list_elem_of_singleton in Hx. by right.
  - rewrite lookup_insert_ne in Hl by done. left. by exists l.
Qed.

Lemma file_sources_origin (irsb : SimRun) (ref : SimRef) (srcs : list source)
    (acc : gmap source (list (Z * SimRef)) * gmap source (list (Z * SimRef)))
    (src : source) (x : Z * SimRef) :
  (produced_by (foldl (file_source irsb ref) acc srcs).1 src x →
   produced_by acc.1 src x ∨
   (src ∈ srcs ∧ is_mem_read ref = true ∧ x = (run_addr irsb, ref))) ∧
  (produced_by (foldl (file_source irsb ref) acc srcs).2 src x →
   produced_by acc.2 src x ∨
   (src ∈ srcs ∧ is_mem_write ref = true ∧ x = (run_addr irsb, ref))).
Proof.
  split; intros Hx.
  - apply (foldl_origin _ (fun acc' => produced_by acc'.1 src x)
             (fun src' => src' = src ∧ is_mem_read ref = true ∧ x = (run_addr irsb, ref)))
      in Hx as [?|(src' & Hin & -> & H)]; [by left|by right|].
    intros acc' src' _ Hx'. destruct ref; try (by left). simpl in Hx'.
    destruct (add_producer_origin _ _ _ _ _ Hx') as [?|[-> ->]]; [by left|by right].
  - apply (foldl_origin _ (fun acc' => produced_by acc'.2 src x)
             (fun src' => src' = src ∧ is_mem_write ref = true ∧ x = (run_addr irsb, ref)))
      in Hx as [?|(src' & Hin & -> & H)]; [by left|by right|].
    intros acc' src' _ Hx'. destruct ref; try (by left). simpl in Hx'.
    destruct (add_producer_origin _ _ _ _ _ Hx') as [?|[-> ->]]; [by left|by right].
Qed.

Section Reconciliation.
Variable get_predecessors : SimRun -> list SimRun.

Lemma collect_producers_origin (fuel : nat) (ops : list (SimRun * SimRef))
    (acc res : gmap source (list (Z * SimRef)) * gmap source (list (Z * SimRef)))
    (src : source) (x : Z * SimRef) :
  collect_producers get_predecessors fuel ops acc = Some (Ok res) →
  (produced_by res.1 src x →
   produced_by acc.1 src x ∨
   ∃ irsb ref srcs, (irsb, ref) ∈ ops ∧
     trace_source get_predecessors fuel irsb ref = Some (Ok srcs) ∧
     src ∈ srcs ∧ is_mem_read ref = true ∧ x = (run_addr irsb, ref)) ∧
  (produced_by res.2 src x →
   produced_by acc.2 src x ∨
   ∃ irsb ref srcs, (irsb, ref) ∈ ops ∧
     trace_source get_predecessors fuel irsb ref = Some (Ok srcs) ∧
     src ∈ srcs ∧ is_mem_write ref = true ∧ x = (run_addr irsb, ref)).
Proof.
  revert acc. induction ops as [|[irsb ref] ops IH]; intros acc; simpl.
  - intros [= <-]. split; by left.
  - destruct (trace_source get_predecessors fuel irsb ref) as [[srcs|]|] eqn:Htrace;
      [|done|done].
    intros Hres. destruct (IH _ Hres) as [IH1 IH2].
    destruct (file_sources_origin irsb ref (elements srcs) acc src x) as [F1 F2].
    split; intros Hx.
    + destruct (IH1 Hx) as [Hacc|(irsb' & ref' & srcs' & Hin & H)].
      * destruct (F1 Hacc) as [?|(Hsrc & Hk & ->)]; [by left|].
        right. exists irsb, ref, srcs. split; [apply list_elem_of_here|].
        split; [done|]. split; [by apply elem_of_elements|done].
      * right. exists irsb', ref', srcs'. split; [by apply list_elem_of_further|done].
    + destruct (IH2 Hx) as [Hacc|(irsb' & ref' & srcs' & Hin & H)].
      * destruct (F2 Hacc) as [?|(Hsrc & Hk & ->)]; [by left|].
        right. exists irsb, ref, srcs. split; [apply list_elem_of_here|].
        split; [done|]. split; [by apply elem_of_elements|done].
      * right. exists irsb', ref', srcs'. split; [by apply list_elem_of_further|done].
Qed.

Lemma collect_producers_traces (fuel : nat) (ops : list (SimRun * SimRef))
    (acc res : gmap source (list (Z * SimRef)) * gmap source (list (Z * SimRef)))
    (irsb : SimRun) (ref : SimRef) :
  collect_producers get_predecessors fuel ops acc = Some (Ok res) →
  (irsb, ref) ∈ ops →
  ∃ srcs, trace_source get_predecessors fuel irsb ref = Some (Ok srcs).
Proof.
  revert acc. induction ops as [|[irsb' ref'] ops IH]; intros acc Hres Hin.
  - by apply elem_of_nil in Hin.
  - simpl in Hres.
    destruct (trace_source get_predecessors fuel irsb' ref') as [[srcs'|]|] eqn:Htrace;
      [|done|done].
    apply elem_of_cons in Hin as [[= -> ->]|Hin]; [by exists srcs'|by eapply IH].
Qed.

(** X10.  The reconciliation pass keeps every edge the DDG had, and every edge
    it adds links a symbolic [SimMemRead] to a symbolic [SimMemWrite] of
    the set whose traces have a source in common. *)
Theorem reconciliation_edges (fuel : nat) (ops : list (SimRun * SimRef))
    (g g' : gmap Z (gmap Z (gset source))) :
  solve_symbolic_mem_operations get_predecessors fuel ops g = Some (Ok g') →
  ddg_le g g' ∧
  ∀ a i w, w ∈ ddg_get g' a i →
    w ∈ ddg_get g a i ∨
    ∃ read_run read_ref write_run write_ref read_srcs write_srcs src,
      (read_run, read_ref) ∈ ops ∧ is_mem_read read_ref = true ∧
      (write_run, write_ref) ∈ ops ∧ is_mem_write write_ref = true ∧
      trace_source get_predecessors fuel read_run read_ref = Some (Ok read_srcs) ∧
      trace_source get_predecessors fuel write_run write_ref = Some (Ok write_srcs) ∧
      src ∈ read_srcs ∧ src ∈ write_srcs ∧
      a = run_addr read_run ∧ i = ref_stmt_idx read_ref ∧
      w = (run_addr write_run, ref_stmt_idx write_ref).
Proof.
  unfold solve_symbolic_mem_operations. intros Hsolve.
  destruct (collect_producers get_predecessors fuel ops (∅, ∅))
    as [[[reads writes]|]|] eqn:Hcol; [|done|done].
  injection Hsolve as <-. split.
  - intros a i w Hw. unfold link_producers.
    apply (foldl_preserve _ (fun g' => w ∈ ddg_get g' a i)); [|done].
    intros g1 [src lw] Hg1. simpl. destruct (reads !! src); [|done].
    by apply link_pairs_mono.
  - intros a i w Hw.
    destruct (link_producers_origin _ _ _ _ _ _ Hw)
      as [?|(src & rd & wr & Hrd & Hwr & -> & -> & ->)]; [by left|].
    right.
    destruct (collect_producers_origin _ _ _ _ src rd Hcol) as [Hr _].
    destruct (collect_producers_origin _ _ _ _ src wr Hcol) as [_ Hw'].
    destruct (Hr Hrd) as [(l & Hl & _)|(rrun & rref & rsrcs & ? & ? & ? & ? & ->)];
      [by simpl in Hl; rewrite lookup_empty in Hl|].
    destruct (Hw' Hwr) as [(l & Hl & _)|(wrun & wref & wsrcs & ? & ? & ? & ? & ->)];
      [by simpl in Hl; rewrite lookup_empty in Hl|].
    by exists rrun, rref, wrun, wref, rsrcs, wsrcs, src.
Qed.

(** X11.  The reconciliation pass cannot succeed once the symbolic-operation
    set holds a reference of a summary run: whatever the fuel, it raises
    or does not return. *)
Theorem reconciliation_with_summary_op (fuel : nat) (ops : list (SimRun * SimRef))
    (g g' : gmap Z (gmap Z (gset source))) (p : SimRun) (ref : SimRef) (rs : list SimRef) :
  (p, ref) ∈ ops → body p = SimProcedure rs →
  solve_symbolic_mem_operations get_predecessors fuel ops g ≠ Some (Ok g').
Proof.
  intros Hin Hbody. unfold solve_symbolic_mem_operations.
  destruct (collect_producers get_predecessors fuel ops (∅, ∅))
    as [[[reads writes]|]|] eqn:Hcol; [|done|done].
  destruct (collect_producers_traces _ _ _ _ _ _ Hcol Hin) as (srcs & Htrace).
  by rewrite (trace_source_summary _ _ _ _ rs Hbody) in Htrace.
Qed.

End Reconciliation.

Lemma reconciliation_edges_witness :
  (0x100, 1) ∈ ddg_get ∅ 0x100 2 ∨
  ∃ read_run read_ref write_run write_ref read_srcs write_srcs src,
    (read_run, read_ref) ∈ [(ptr_block, ptr_write); (ptr_block, ptr_read)] ∧
    is_mem_read read_ref = true ∧
    (write_run, write_ref) ∈ [(ptr_block, ptr_write); (ptr_block, ptr_read)] ∧
    is_mem_write write_ref = true ∧
    trace_source no_predecessors 1 read_run read_ref = Some (Ok read_srcs) ∧
    trace_source no_predecessors 1 write_run write_ref = Some (Ok write_srcs) ∧
    src ∈ read_srcs ∧ src ∈ write_srcs ∧
    0x100 = run_addr read_run ∧ 2 = ref_stmt_idx read_ref ∧
    (0x100, 1) = (run_addr write_run, ref_stmt_idx write_ref).
Proof.
  destruct (reconciliation_edges no_predecessors 1
              [(ptr_block, ptr_write); (ptr_block, ptr_read)] ∅
              {[ 0x100 := {[ 2 := {[ (0x100, 1) ]} ]} ]}) as [_ Hall].
  - vm_compute. reflexivity.
  - apply Hall. by_computation.
Defined.

Lemma reconciliation_with_summary_op_witness :
  solve_symbolic_mem_operations no_predecessors 5
    [(ptr_block, ptr_write); (sym_proc, sym_proc_read)] ∅ ≠ Some (Ok ∅).
Proof.
  apply (reconciliation_with_summary_op no_predecessors 5 _ ∅ ∅
           sym_proc sym_proc_read [sym_proc_read]).
  - apply list_elem_of_further, list_elem_of_here.
  - reflexivity.
Defined.

(** ** Where a run files its edges *)

Lemma rows_kept_refl (a : Z) (row : Z → Prop) (g : gmap Z (gmap Z (gset source))) :
  rows_kept a row g g.
Proof. by intros a' i' _. Qed.

Lemma rows_kept_trans (a : Z) (row1 row2 row : Z → Prop)
    (g1 g2 g3 : gmap Z (gmap Z (gset source))) :
  (∀ i, row1 i → row i) → (∀ i, row2 i → row i) →
  rows_kept a row1 g1 g2 → rows_kept a row2 g2 g3 → rows_kept a row g1 g3.
Proof.
  intros H1 H2 H12 H23 a' i' Hno. rewrite H23, H12; [done| |].
  - intros [-> Hr]. apply Hno. split; [done|by apply H1].
  - intros [-> Hr]. apply Hno. split; [done|by apply H2].
Qed.

Lemma rows_kept_add (a i : Z) (w : source) (g : gmap Z (gmap Z (gset source))) :
  rows_kept a (eq i) g (ddg_add a i w g).
Proof.
  intros a' i' Hno. rewrite ddg_get_add. case_decide as Heq; [|done].
  injection Heq as -> ->. exfalso. by apply Hno.
Qed.

Section Rows.
Variables lbound ubound : Z.

Lemma record_write_ddg (a : Z) (tpl : source) (s s1 : Scan) :
  record_write lbound ubound a tpl s = Ok s1 → sc_ddg s1 = sc_ddg s.
Proof. intros H. by destruct (record_write_frames lbound ubound a tpl s s1 H) as (_ & ? & _). Qed.

Lemma scan_mem_reads_rows (old_irsb : SimRun) (a i : Z) (rs : list SimRef) (s s' : Scan) :
  scan_mem_reads lbound ubound old_irsb a i rs s = Ok s' →
  rows_kept a (eq i) (sc_ddg s) (sc_ddg s').
Proof.
  revert s. induction rs as [|ref rs IH]; intros s; simpl.
  - intros [= <-]. apply rows_kept_refl.
  - destruct ref; try apply IH.
    destruct (is_symbolic addr); simpl; [apply (IH (add_sym _ s))|].
    destruct (lookup_write lbound ubound (any addr) s) as [[tpl|]|]; simpl; [| |done].
    + intros [= <-]. apply rows_kept_add.
    + apply IH.
Qed.

Lemma process_stmt_rows (old_irsb : SimRun) (a i : Z) (stmt : Stmt) (s s' : Scan) :
  process_stmt lbound ubound old_irsb a i stmt s = Ok s' →
  rows_kept a (eq i) (sc_ddg s) (sc_ddg s').
Proof.
  unfold process_stmt. destruct (last (refs stmt)) as [real_ref|].
  2: { intros [= <-]. apply rows_kept_refl. }
  destruct (match real_ref with
            | SimMemWrite _ addr _ _ _ _ =>
                if negb (is_symbolic addr)
                then record_write lbound ubound (any addr) (a, i) s
                else Ok (add_sym (old_irsb, real_ref) s)
            | _ => Ok s
            end) as [s1|] eqn:Hs1; [|done].
  simpl. intros Hscan. apply scan_mem_reads_rows in Hscan.
  assert (sc_ddg s1 = sc_ddg s) as <-; [|done].
  destruct real_ref; try (by injection Hs1 as <-).
  destruct (is_symbolic addr); simpl in Hs1; [by injection Hs1 as <-|].
  by eapply record_write_ddg.
Qed.

Lemma process_stmts_rows (old_irsb : SimRun) (a i : Z) (stmts : list Stmt) (s s' : Scan) :
  process_stmts lbound ubound old_irsb a i stmts s = Ok s' →
  rows_kept a (fun j => i ≤ j < i + Z.of_nat (length stmts)) (sc_ddg s) (sc_ddg s').
Proof.
  revert i s. induction stmts as [|stmt stmts IH]; intros i s; simpl.
  - intros [= <-]. apply rows_kept_refl.
  - destruct (process_stmt lbound ubound old_irsb a i stmt s) as [s1|] eqn:H1; [|done].
    simpl. intros Hrest.
    eapply (rows_kept_trans a (eq i)
              (fun j => i + 1 ≤ j < i + 1 + Z.of_nat (length stmts)));
      [| |by eapply process_stmt_rows|by apply IH].
    + intros j <-. lia.
    + intros j Hj. lia.
Qed.

Lemma process_proc_refs_rows (old_sim_proc : SimRun) (a : Z) (i : option Z)
    (rs : list SimRef) (s s' : Scan) :
  process_proc_refs lbound ubound old_sim_proc a i rs s = Ok s' →
  rows_kept a (eq (-1)) (sc_ddg s) (sc_ddg s').
Proof.
  revert s. induction rs as [|ref rs IH]; intros s; simpl.
  - intros [= <-]. apply rows_kept_refl.
  - destruct ref; try apply IH.
    + destruct (is_symbolic addr); simpl; [apply (IH (add_sym _ s))|].
      destruct (lookup_write lbound ubound (any addr) s) as [[tpl|]|]; simpl; [| |done].
      * intros [= <-]. apply rows_kept_add.
      * apply IH.
    + destruct (is_symbolic addr); simpl; [apply (IH (add_sym _ s))|].
      destruct i as [i|]; simpl; [|done].
      destruct (record_write lbound ubound (any addr) (a, i) s) as [s1|] eqn:H1; [|done].
      simpl. intros Hrest. apply IH in Hrest.
      by rewrite (record_write_ddg _ _ _ _ H1) in Hrest.
Qed.

End Rows.

(** X12.  Processing a run changes the DDG only in the run's own rows: under
    the address of the reanalysed run, at the indices of its statements
    for a basic block and at [-1] for a summary run. *)
Theorem process_run_rows (initial_irsb old_run new_run : SimRun) (i i' : option Z)
    (s s' : Scan) :
  process_run initial_irsb old_run new_run i s = Ok (s', i') →
  rows_kept (run_addr new_run) (own_rows new_run) (sc_ddg s) (sc_ddg s').
Proof.
  unfold process_run, own_rows. destruct (body new_run) as [stmts|rs].
  - destruct (process_stmts _ _ _ _ _ _ _) as [s1|] eqn:H1; [|done].
    simpl. intros [= <- _]. apply process_stmts_rows in H1.
    intros a' j Hno. apply H1. intros [-> Hj]. apply Hno. split; [done|lia].
  - destruct (process_proc_refs _ _ _ _ _ _ _) as [s1|] eqn:H1; [|done].
    simpl. intros [= <- _]. apply process_proc_refs_rows in H1.
    intros a' j Hno. apply H1. intros [-> <-]. by apply Hno.
Qed.

Lemma process_run_rows_witness :
  ddg_get (ddg_add 0x300 0 (0x200, 2) ∅) 0x200 (-1) = ddg_get ∅ 0x200 (-1).
Proof.
  apply (process_run_rows wr_entry wr_reader wr_reader (Some 2) (Some 0)
           {| sc_stack := [ {| initial_sp := Some 0x80000000;
                               addr_to_ref := {[ 0x5000 := (0x200, 2) ]} |} ];
              sc_flag := true; sc_ddg := ∅; sc_sym := [] |}
           {| sc_stack := [ {| initial_sp := Some 0x80000000;
                               addr_to_ref := {[ 0x5000 := (0x200, 2) ]} |} ];
              sc_flag := true; sc_ddg := ddg_add 0x300 0 (0x200, 2) ∅; sc_sym := [] |}).
  - vm_compute. reflexivity.
  - intros [H _]. discriminate H.
Defined.

(** ** Successors queued by one expansion *)

Lemma expand_successor_step (new_run : SimRun) (scanned : gmap nat nat) (cs : CallStack)
    (flag : bool) (successor : SimRun) (stk stk' : list RunWrapper) (tg tg' : gset Z) :
  expand_successor new_run scanned cs flag successor (stk, tg) = Ok (stk', tg') →
  (stk' = stk ∧ tg' = tg) ∨
  ∃ w, stk' = w :: stk ∧ tg' = tg ∪ {[run_addr (run w)]} ∧ (run_addr (run w) ∉ tg) ∧
       run w = successor ∧ reanalyze_successors w = flag ∧
       new_state w = successor_state (exits new_run) (run_addr successor) ∧
       successor_call_stack new_run (new_state w) cs = Ok (call_stack w).
Proof.
  unfold expand_successor.
  destruct (match scanned !! rid successor with
            | Some n => negb (flag && (n <? MAX_BBL_ANALYZE_TIMES)%nat)
            | None => false
            end); [intros [= <- <-]; by left|].
  destruct (existsb _ stk); [intros [= <- <-]; by left|].
  case_bool_decide as Hin; [intros [= <- <-]; by left|].
  destruct (successor_call_stack _ _ _) as [ncs|] eqn:Hncs; [|done]. simpl.
  intros [= <- <-]. right. eexists. split; [done|]. simpl. by repeat split.
Qed.

(** X13.  From one expansion at most one wrapper per successor address is
    queued — a second successor at an address already taken is dropped —
    and each queued wrapper carries the reanalysis flag of the expansion
    and the state of the first exit that goes to its address. *)
Theorem expand_successors_queued (new_run : SimRun) (scanned : gmap nat nat)
    (cs : CallStack) (flag : bool) (successors : list SimRun)
    (stk stk' : list RunWrapper) (tg tg' : gset Z) :
  expand_successors new_run scanned cs flag successors (stk, tg) = Ok (stk', tg') →
  ∃ queued,
    stk' = queued ++ stk ∧
    NoDup (run_addr ∘ run <$> queued) ∧
    (∀ w, w ∈ queued →
       run w ∈ successors ∧ (run_addr (run w) ∉ tg) ∧ run_addr (run w) ∈ tg' ∧
       reanalyze_successors w = flag ∧
       new_state w = successor_state (exits new_run) (run_addr (run w))) ∧
    tg ⊆ tg'.
Proof.
  revert stk tg. induction successors as [|s successors IH]; intros stk tg;
    cbn [expand_successors].
  - intros [= <- <-]. exists []. split; [done|]. split; [apply NoDup_nil_2|].
    split; [|done]. intros w Hw. by apply elem_of_nil in Hw.
  - destruct (expand_successor new_run scanned cs flag s (stk, tg)) as [[stk1 tg1]|] eqn:H1;
      [|done].
    cbn [mbind Result_bind]. intros Hrest.
    destruct (IH stk1 tg1 Hrest) as (queued & -> & Hnd & Hall & Hsub).
    destruct (expand_successor_step _ _ _ _ _ _ _ _ _ H1)
      as [[-> ->]|(w & -> & -> & Hfresh & Hrun & Hflag & Hstate & _)].
    + exists queued. split; [done|]. split; [done|]. split; [|done].
      intros w Hw. destruct (Hall w Hw) as (? & ? & ? & ? & ?).
      split; [by apply list_elem_of_further|done].
    + exists (queued ++ [w]). split; [by rewrite <- app_assoc|].
      split; [|split].
      * rewrite fmap_app. apply NoDup_app. split; [done|]. split; [|apply NoDup_singleton].
        intros a Ha Ha'. apply list_elem_of_singleton in Ha'. subst a.
        apply list_elem_of_fmap in Ha as (w' & Heq & Hw').
        destruct (Hall w' Hw') as (_ & Hnot & _). apply Hnot.
        apply elem_of_union_r, elem_of_singleton. simpl in Heq. congruence.
      * intros w' Hw'. apply elem_of_app in Hw' as [Hw'|Hw'].
        -- destruct (Hall w' Hw') as (? & Hnot & ? & ? & ?).
           split; [by apply list_elem_of_further|]. split; [|done].
           intros Hin. apply Hnot. by apply elem_of_union_l.
        -- apply list_elem_of_singleton in Hw' as ->.
           split; [rewrite Hrun; apply list_elem_of_here|]. split; [done|].
           split; [apply Hsub, elem_of_union_r; by apply elem_of_singleton|].
           split; [done|]. by rewrite Hstate, Hrun.
      * intros a Ha. by apply Hsub, elem_of_union_l.
Qed.

Lemma expand_successors_queued_witness :
  ∃ queued,
    [ {| run := wr_proc; new_state := Some st0;
         call_stack := [new_StackFrame (Some 0x80000000)];
         reanalyze_successors := false |} ] = queued ++ [] ∧
    NoDup (run_addr ∘ run <$> queued).
Proof.
  destruct (expand_successors_queued wr_entry {[ 0%nat := 1%nat ]}
              [new_StackFrame (Some 0x80000000)] false
              [wr_proc; {| rid := 7; run_addr := 0x200; body := SimIRSB [];
                           exits := []; initial_state := st0 |}]
              []
              [ {| run := wr_proc; new_state := Some st0;
                   call_stack := [new_StackFrame (Some 0x80000000)];
                   reanalyze_successors := false |} ]
              ∅ {[ 0x200 ]}) as (queued & Hq & Hnd & _).
  - vm_compute. reflexivity.
  - by exists queued.
Defined.

(** ** [construct] as a whole *)

Lemma walk_loop_done (get_successors : SimRun -> list SimRun)
    (reanalyze : SimRun -> option SimState -> SimRun) (initial_irsb : SimRun)
    (fuel : nat) (st st' : WalkState) :
  walk_loop get_successors reanalyze initial_irsb fuel st = Some (Ok st') →
  run_stack st' = [].
Proof.
  revert st. induction fuel as [|fuel IH]; intros st; simpl.
  - destruct (run_stack st) eqn:Hs; [|done]. by intros [= <-].
  - destruct (run_stack st) eqn:Hs; [by intros [= <-]|].
    destruct (walk_step _ _ _ st) as [st1|]; [apply IH|done].
Qed.

(** X14.  When [construct] returns a DDG, the forward walk has emptied its
    pending stack, every edge the walk recorded is in the result, and no
    reference of a summary run was collected as a symbolic operation. *)
Theorem construct_result (get_predecessors get_successors : SimRun -> list SimRun)
    (reanalyze : SimRun -> option SimState -> SimRun) (initial_irsb : SimRun)
    (fuel : nat) (g : gmap Z (gmap Z (gset source))) :
  construct get_predecessors get_successors reanalyze initial_irsb fuel = Some (Ok g) →
  ∃ st,
    walk_loop get_successors reanalyze initial_irsb fuel (walk_init initial_irsb)
      = Some (Ok st) ∧
    run_stack st = [] ∧
    ddg_le (ddg st) g ∧
    ∀ p ref, (p, ref) ∈ symbolic_mem_ops st → ∃ stmts, body p = SimIRSB stmts.
Proof.
  unfold construct.
  destruct (walk_loop get_successors reanalyze initial_irsb fuel (walk_init initial_irsb))
    as [[st|]|] eqn:Hwalk; [|done|done].
  intros Hsolve. exists st. split; [done|]. split; [by eapply walk_loop_done|].
  unfold solve_symbolic_mem_operations in Hsolve.
  destruct (collect_producers get_predecessors fuel (symbolic_mem_ops st) (∅, ∅))
    as [[[reads writes]|]|] eqn:Hcol; [|done|done].
  injection Hsolve as <-. split.
  - intros a i w Hw. unfold link_producers.
    apply (foldl_preserve _ (fun g' => w ∈ ddg_get g' a i)); [|done].
    intros g1 [src lw] Hg1. simpl. destruct (reads !! src); [|done].
    by apply link_pairs_mono.
  - intros p ref Hin.
    destruct (collect_producers_traces _ _ _ _ _ _ _ Hcol Hin) as (srcs & Htrace).
    destruct (body p) as [stmts|rs] eqn:Hbody; [by exists stmts|].
    by rewrite (trace_source_summary _ _ _ _ rs Hbody) in Htrace.
Qed.

Lemma construct_result_witness :
  ∃ st,
    walk_loop wr_successors same_run wr_entry 3 (walk_init wr_entry) = Some (Ok st) ∧
    run_stack st = [] ∧
    ddg_le (ddg st) {[ 0x300 := {[ 0 := {[ (0x200, 2) ]} ]} ]}.
Proof.
  destruct (construct_result no_predecessors wr_successors same_run wr_entry 3
              {[ 0x300 := {[ 0 := {[ (0x200, 2) ]} ]} ]})
    as (st & Hwalk & Hdone & Hle & _).
  - vm_compute. reflexivity.
  - by exists st.
Defined.

(** ** Instances of the walk properties *)


Lemma walk_loop_grows_witness :
  ∃ st st',
    walk_step wr_successors same_run wr_entry (walk_init wr_entry) = Ok st ∧
    walk_loop wr_successors same_run wr_entry 2 st = Some (Ok st') ∧
    ddg_le (ddg st) (ddg st') ∧ symbolic_mem_ops st ⊆ symbolic_mem_ops st'.
Proof.
  destruct (walk_step wr_successors same_run wr_entry (walk_init wr_entry))
    as [st|] eqn:Hstep; [|by vm_compute in Hstep].
  destruct (walk_loop wr_successors same_run wr_entry 2 st) as [[st'|]|] eqn:Hloop.
  - exists st, st'. split; [done|]. split; [done|].
    apply (walk_loop_grows wr_successors same_run wr_entry 2 st st'); [|done].
    apply (reach_step _ _ _ (walk_init wr_entry)); [apply reach_init|done|done].
  - exfalso. revert Hloop. vm_compute in Hstep. injection Hstep as <-.
    vm_compute. discriminate.
  - exfalso. revert Hloop. vm_compute in Hstep. injection Hstep as <-.
    vm_compute. discriminate.
Defined.
